(** * Mark: the wake-word / utterance-recording loop of [main.js]

    A shallow embedding of the microphone ['data'] handler of [main.js]
    (lines 76-153) and of the three functions it drives:
    [startUserSpeechRecording], [stopUserSpeechRecording] and
    [saveAudioToFile].

    The three module-level variables [isRecording], [speechBuffer] and
    [audioBuffer] become fields of a record that is threaded through the
    handlers.  The Porcupine engine is an opaque, stateful scorer; the
    node-vad classifier answers through a promise, so its answer is
    delivered by a later event of the Node event loop. *)

From Stdlib Require Import ZArith Lia Strings.Byte.
From stdpp Require Import base option list strings pretty.

Local Open Scope Z_scope.
Local Open Scope nat_scope.

(** ** Buffers *)

(** A Node [Buffer] is a sequence of octets. *)
Abbreviation Buffer := (list byte).

Definition readUInt8 (b : byte) : Z := Z.of_N (Byte.to_N b).

(** [buf.readInt16LE(offset)]: two octets, little endian, two's complement.
    Node throws a [RangeError] when the two octets are not inside the
    buffer; that is [None] here. *)
Definition readInt16LE (buf : Buffer) (offset : nat) : option Z :=
  lo ← buf !! offset;
  hi ← buf !! (offset + 1);
  let val := (readUInt8 lo + readUInt8 hi * 256)%Z in
  Some (if Z.testbit val 15 then (val - 65536)%Z else val).

(** ** The collaborators *)

(** The Porcupine object: [porcupine.frameLength], [porcupine.sampleRate]
    and [porcupine.process(pcm)].  The engine keeps state of its own between
    calls, so [process] takes and returns it. *)
Record Porcupine : Type := {
  engine : Type;
  frameLength : nat;
  sampleRate : Z;
  process : list Z → engine → Z * engine
}.

(** node-vad's [VAD.Event]. *)
Module VAD.
Inductive Event : Set := ERROR | SILENCE | VOICE | NOISE.

Definition Event_eqb (a b : Event) : bool :=
  match a, b with
  | ERROR, ERROR | SILENCE, SILENCE | VOICE, VOICE | NOISE, NOISE => true
  | _, _ => false
  end.
End VAD.

(** How the promise returned by [vad.processAudio(data, sampleRate)] is
    settled: fulfilled with an event, or rejected. *)
Inductive vad_outcome : Set :=
| Resolved (res : VAD.Event)
| Rejected.

(** How the [wav.FileWriter] ends: the file is written, or writing it
    fails. *)
Inductive io_outcome : Set :=
| IoFinish
| IoError.

(** What the loop does to the outside world, in the order it does it. *)
Inductive output : Type :=
| Scanned (frame : Buffer) (pcm : list Z) (keywordIndex : Z)
    (* porcupine.process(pcm) returned keywordIndex *)
| WakeEvent                       (* startUserSpeechRecording() *)
| SilenceEvent                    (* stopUserSpeechRecording() *)
| Finalized (audioData : Buffer)  (* saveAudioToFile(audioData, ...) *)
| Transcribed.                    (* processUserSpeech('user_speech.wav') *)

(** What the Node event loop delivers: a chunk from the microphone stream,
    or the settlement of the [k]-th classifier promise still in flight
    (together with the fate of the file write it may start). *)
Inductive event : Type :=
| MicData (data : Buffer)
| VadSettled (k : nat) (o : vad_outcome) (io : io_outcome).

Section Loop.

Variable porcupine : Porcupine.

(** ** State *)

Record State : Type := mkState {
  isRecording : bool;                 (* let isRecording = false *)
  speechBuffer : list Buffer;         (* let speechBuffer = [] *)
  audioBuffer : Buffer;               (* let audioBuffer = Buffer.alloc(0) *)
  engineState : engine porcupine;     (* inside the porcupine object *)
  vadPending : list (Buffer * Z);     (* processAudio calls not settled yet *)
  trace : list output;                (* what has been done so far *)
  exited : bool                       (* the Node process has ended *)
}.

Definition initial (e : engine porcupine) : State :=
  mkState false [] [] e [] [] false.

Definition set_isRecording (b : bool) (st : State) : State :=
  mkState b (speechBuffer st) (audioBuffer st) (engineState st)
          (vadPending st) (trace st) (exited st).

Definition set_speechBuffer (sb : list Buffer) (st : State) : State :=
  mkState (isRecording st) sb (audioBuffer st) (engineState st)
          (vadPending st) (trace st) (exited st).

Definition set_audioBuffer (ab : Buffer) (st : State) : State :=
  mkState (isRecording st) (speechBuffer st) ab (engineState st)
          (vadPending st) (trace st) (exited st).

Definition set_engineState (e : engine porcupine) (st : State) : State :=
  mkState (isRecording st) (speechBuffer st) (audioBuffer st) e
          (vadPending st) (trace st) (exited st).

Definition set_vadPending (p : list (Buffer * Z)) (st : State) : State :=
  mkState (isRecording st) (speechBuffer st) (audioBuffer st) (engineState st)
          p (trace st) (exited st).

Definition emit (o : output) (st : State) : State :=
  mkState (isRecording st) (speechBuffer st) (audioBuffer st) (engineState st)
          (vadPending st) (trace st ++ [o]) (exited st).

(** An exception that nothing catches, or a rejection that nothing handles,
    ends the process (Node 15 and later): no further event is handled. *)
Definition exit (st : State) : State :=
  mkState (isRecording st) (speechBuffer st) (audioBuffer st) (engineState st)
          (vadPending st) (trace st) true.

(** ** The functions of [main.js] *)

(** [function startUserSpeechRecording()] *)
Definition startUserSpeechRecording (st : State) : State :=
  set_speechBuffer [] (set_isRecording true (emit WakeEvent st)).

(** [function saveAudioToFile(audioData, filename, callback)].  The writer
    emits ['finish'] once [end()] has been worked off, also when writing the
    file fails, so the callback, [processUserSpeech], runs in both cases; it
    touches none of the three variables.  A failing write emits ['error'] as
    well, to which nothing listens: that ends the process. *)
Definition saveAudioToFile (io : io_outcome) (audioData : Buffer) (st : State)
  : State :=
  let st := emit Transcribed (emit (Finalized audioData) st) in
  match io with
  | IoFinish => st
  | IoError => exit st
  end.

(** [function stopUserSpeechRecording()] *)
Definition stopUserSpeechRecording (io : io_outcome) (st : State) : State :=
  let st := set_isRecording false (emit SilenceEvent st) in
  let audioData := concat (speechBuffer st) in
  saveAudioToFile io audioData st.

(** [new Int16Array(frameLength)] filled with
    [pcm[i] = frame.readInt16LE(i * 2)] for [i < frameLength]. *)
Definition to_pcm (frame : Buffer) : option (list Z) :=
  mapM (λ i, readInt16LE frame (i * 2)) (seq 0 (frameLength porcupine)).

(** The [while (audioBuffer.length >= frameLength * 2)] loop of the wake-word
    branch.  [None]: the handler does not return (a [RangeError], or the loop
    has not ended within [fuel] iterations). *)
Fixpoint scan_loop (fuel : nat) (st : State) : option State :=
  match fuel with
  | O => None
  | S fuel' =>
    if bool_decide (frameLength porcupine * 2 ≤ length (audioBuffer st)) then
      let frame := take (frameLength porcupine * 2) (audioBuffer st) in
      let st := set_audioBuffer
                  (drop (frameLength porcupine * 2) (audioBuffer st)) st in
      pcm ← to_pcm frame;
      let '(keywordIndex, e) := process porcupine pcm (engineState st) in
      let st := emit (Scanned frame pcm keywordIndex) (set_engineState e st) in
      if bool_decide (0 ≤ keywordIndex)%Z then
        Some (startUserSpeechRecording st)          (* ... break *)
      else scan_loop fuel' st
    else Some st
  end.

(** [micInputStream.on('data', (data) => ...)].  Every iteration of the loop
    removes [frameLength * 2] octets, so with a positive frame length the
    fuel given here is never used up (see [on_data_returns]).  With the
    frame length 0 an iteration removes nothing, and [None] says no more
    than that the loop has not ended within this many iterations.

    In the other branch [vad.processAudio] reads the chunk two octets at a
    time, with [readInt16LE], before it returns its promise: on a chunk of
    odd length it throws a [RangeError], after the push; nothing catches it,
    and the process ends. *)
Definition on_data (data : Buffer) (st : State) : option State :=
  if negb (isRecording st) then
    let st := set_audioBuffer (audioBuffer st ++ data) st in
    scan_loop (S (length (audioBuffer st))) st
  else
    let st := set_speechBuffer (speechBuffer st ++ [data]) st in
    if Nat.even (length data) then
      Some (set_vadPending (vadPending st ++ [(data, sampleRate porcupine)]) st)
    else Some (exit st).

(** The callback given to [.then]:
    [(res) => { if (res === VAD.Event.SILENCE) stopUserSpeechRecording() }] *)
Definition on_vad_result (res : VAD.Event) (io : io_outcome) (st : State)
  : State :=
  if VAD.Event_eqb res VAD.SILENCE then stopUserSpeechRecording io st else st.

(** Settlement of a promise: [.then] has a fulfilment callback only and no
    [.catch] follows, so a rejection runs no code of the program and, being
    unhandled, ends the process. *)
Definition on_vad_settled (o : vad_outcome) (io : io_outcome) (st : State)
  : State :=
  match o with
  | Resolved res => on_vad_result res io st
  | Rejected => exit st
  end.

(** What an event makes the program do. *)
Definition handle (ev : event) (st : State) : option State :=
  match ev with
  | MicData data => on_data data st
  | VadSettled k o io =>
    _ ← vadPending st !! k;
    Some (on_vad_settled o io (set_vadPending (delete k (vadPending st)) st))
  end.

(** One turn of the event loop.  A settlement of a promise that is not in
    flight, or an event after the process has ended, is not an execution
    ([None]). *)
Definition step (ev : event) (st : State) : option State :=
  if exited st then None else handle ev st.

Fixpoint run (evs : list event) (st : State) : option State :=
  match evs with
  | [] => Some st
  | ev :: evs => st' ← step ev st; run evs st'
  end.

(** A well-formed record of one call of [porcupine.process]: a whole frame,
    and the samples read from it. *)
Definition scan_ok (o : output) : Prop :=
  match o with
  | Scanned frame pcm _ =>
    length frame = frameLength porcupine * 2 ∧ to_pcm frame = Some pcm ∧ length pcm = frameLength porcupine
  | _ => False
  end.

(** A call of [porcupine.process] that did not report the keyword. *)
Definition no_keyword (o : output) : Prop :=
  match o with
  | Scanned _ _ keywordIndex => (keywordIndex < 0)%Z
  | _ => False
  end.

(** A run in which every event finds the session in RECORDING: the events
    of one recording phase.  Only the last of them can leave RECORDING. *)
Fixpoint run_while_recording (evs : list event) (st : State) : option State :=
  match evs with
  | [] => Some st
  | ev :: evs =>
    if isRecording st then st' ← step ev st; run_while_recording evs st'
    else None
  end.

End Loop.

Arguments isRecording {_} _.
Arguments speechBuffer {_} _.
Arguments audioBuffer {_} _.
Arguments engineState {_} _.
Arguments vadPending {_} _.
Arguments trace {_} _.
Arguments exited {_} _.
Arguments exit {_} _.
Arguments handle {_} _ _.
Arguments set_isRecording {_} _ _.
Arguments set_speechBuffer {_} _ _.
Arguments set_audioBuffer {_} _ _.
Arguments set_engineState {_} _ _.
Arguments set_vadPending {_} _ _.
Arguments emit {_} _ _.
Arguments startUserSpeechRecording {_} _.
Arguments saveAudioToFile {_} _ _ _.
Arguments stopUserSpeechRecording {_} _ _.
Arguments scan_loop {_} _ _.
Arguments on_data {_} _ _.
Arguments on_vad_result {_} _ _ _.
Arguments on_vad_settled {_} _ _ _.
Arguments step {_} _ _.
Arguments run {_} _ _.
Arguments run_while_recording {_} _ _.

(** ** Reading the trace *)

(** The frames handed to [porcupine.process], oldest first. *)
Definition scanned_frames (t : list output) : list Buffer :=
  omap (λ o, match o with Scanned frame _ _ => Some frame | _ => None end) t.

(** The sample arrays handed to [porcupine.process], oldest first. *)
Definition scanned_pcm (t : list output) : list (list Z) :=
  omap (λ o, match o with Scanned _ pcm _ => Some pcm | _ => None end) t.

(** The buffers handed to [saveAudioToFile], oldest first. *)
Definition finalized (t : list output) : list Buffer :=
  omap (λ o, match o with Finalized a => Some a | _ => None end) t.

Definition is_wake (o : output) : bool :=
  match o with WakeEvent => true | _ => false end.

Definition is_silence (o : output) : bool :=
  match o with SilenceEvent => true | _ => false end.

(** How many times [startUserSpeechRecording] ran. *)
Definition wake_events (t : list output) : nat := length (filter is_wake t).

(** How many times [stopUserSpeechRecording] ran. *)
Definition silence_events (t : list output) : nat :=
  length (filter is_silence t).

(** The chunks delivered by the microphone in a sequence of events. *)
Definition chunks_of (evs : list event) : list Buffer :=
  omap (λ ev, match ev with MicData d => Some d | _ => None end) evs.

(** ** Two small engines to run the loop on *)

(** Never reports the keyword. *)
Definition deaf (fl : nat) : Porcupine :=
  {| engine := unit;
     frameLength := fl;
     sampleRate := 16000;
     process := λ _ _, ((-1)%Z, tt) |}.

(** Reports the keyword on every frame but the first [n] it is given. *)
Definition patient (n fl : nat) : Porcupine :=
  {| engine := nat;
     frameLength := fl;
     sampleRate := 16000;
     process := λ _ calls,
       (if bool_decide (calls < n) then (-1)%Z else 0%Z, S calls) |}.

(** Reports the keyword on every frame. *)
Definition eager (fl : nat) : Porcupine :=
  {| engine := unit;
     frameLength := fl;
     sampleRate := 16000;
     process := λ _ _, (0%Z, tt) |}.

(** An event that does not deliver the answer SILENCE. *)
Definition no_silence_result (ev : event) : Prop :=
  match ev with
  | VadSettled _ (Resolved VAD.SILENCE) _ => False
  | _ => True
  end.

(** ** A session to run by hand

    The engine reports the keyword on every frame and a frame is one sample
    (two octets).  The microphone delivers the octets 1 to 10 in four
    chunks. *)
Module Demo.

Definition fresh : State (eager 1) := initial (eager 1) tt.

(** The first chunk: its first frame reports the keyword, two octets are
    left over. *)
Definition wake_chunk : Buffer := [x01; x02; x03; x04].

Definition woken : State (eager 1) :=
  {| isRecording := true;
     speechBuffer := [];
     audioBuffer := [x03; x04];
     engineState := (tt : engine (eager 1));
     vadPending := [];
     trace := [Scanned [x01; x02] [513%Z] 0%Z; WakeEvent];
     exited := false |}.

(** Two chunks are recorded. *)
Definition one_chunk : State (eager 1) :=
  {| isRecording := true;
     speechBuffer := [[x05; x06]];
     audioBuffer := [x03; x04];
     engineState := (tt : engine (eager 1));
     vadPending := [([x05; x06], 16000%Z)];
     trace := [Scanned [x01; x02] [513%Z] 0%Z; WakeEvent];
     exited := false |}.

Definition two_chunks : State (eager 1) :=
  {| isRecording := true;
     speechBuffer := [[x05; x06]; [x07; x08]];
     audioBuffer := [x03; x04];
     engineState := (tt : engine (eager 1));
     vadPending := [([x05; x06], 16000%Z); ([x07; x08], 16000%Z)];
     trace := [Scanned [x01; x02] [513%Z] 0%Z; WakeEvent];
     exited := false |}.

(** The first of them is classified as VOICE. *)
Definition voiced : State (eager 1) :=
  {| isRecording := true;
     speechBuffer := [[x05; x06]; [x07; x08]];
     audioBuffer := [x03; x04];
     engineState := (tt : engine (eager 1));
     vadPending := [([x07; x08], 16000%Z)];
     trace := [Scanned [x01; x02] [513%Z] 0%Z; WakeEvent];
     exited := false |}.

(** The second is classified as SILENCE, and the file is written. *)
Definition stopped : State (eager 1) :=
  {| isRecording := false;
     speechBuffer := [[x05; x06]; [x07; x08]];
     audioBuffer := [x03; x04];
     engineState := (tt : engine (eager 1));
     vadPending := [];
     trace := [Scanned [x01; x02] [513%Z] 0%Z; WakeEvent;
               SilenceEvent; Finalized [x05; x06; x07; x08]; Transcribed];
     exited := false |}.

(** The next chunk arrives in LISTENING. *)
Definition woken_again : State (eager 1) :=
  {| isRecording := true;
     speechBuffer := [];
     audioBuffer := [x09; x0a];
     engineState := (tt : engine (eager 1));
     vadPending := [];
     trace := [Scanned [x01; x02] [513%Z] 0%Z; WakeEvent;
               SilenceEvent; Finalized [x05; x06; x07; x08]; Transcribed;
               Scanned [x03; x04] [1027%Z] 0%Z; WakeEvent];
     exited := false |}.

Definition recording_phase : list event :=
  [MicData [x05; x06]; MicData [x07; x08];
   VadSettled 0 (Resolved VAD.VOICE) IoFinish].

Definition last_answer : event :=
  VadSettled 0 (Resolved VAD.SILENCE) IoFinish.

(** Two answers SILENCE for one recording: the second one is delivered
    when the next recording has just begun. *)
Definition late_answer : list event :=
  [MicData [x01; x02];
   MicData [x03; x04]; MicData [x05; x06];
   VadSettled 0 (Resolved VAD.SILENCE) IoFinish;
   MicData [x07; x08];
   VadSettled 0 (Resolved VAD.SILENCE) IoFinish].

(** The state at the end of [late_answer]. *)
Definition answered_late : State (eager 1) :=
  {| isRecording := false;
     speechBuffer := [];
     audioBuffer := [];
     engineState := (tt : engine (eager 1));
     vadPending := [];
     trace := [Scanned [x01; x02] [513%Z] 0%Z; WakeEvent;
               SilenceEvent; Finalized [x03; x04; x05; x06]; Transcribed;
               Scanned [x07; x08] [2055%Z] 0%Z; WakeEvent;
               SilenceEvent; Finalized []; Transcribed];
     exited := false |}.

End Demo.

(** ** Replaying the engine, counting answers *)

Section Replay.

Variable porcupine : Porcupine.

(** [porcupine.process] called on sample arrays one after the other: the
    answers, and the state the engine is left in. *)
Fixpoint replay (pcms : list (list Z)) (e : engine porcupine)
  : list Z * engine porcupine :=
  match pcms with
  | [] => ([], e)
  | pcm :: pcms =>
    let '(keywordIndex, e) := process porcupine pcm e in
    let '(rest, e) := replay pcms e in
    (keywordIndex :: rest, e)
  end.

End Replay.

Arguments replay {_} _ _.

(** The answers of [porcupine.process] recorded in a trace, oldest first. *)
Definition scanned_keywords (t : list output) : list Z :=
  omap (λ o, match o with Scanned _ _ k => Some k | _ => None end) t.

(** The sixteen-bit samples that a sequence of octets holds: two octets a
    sample, the lower octet first, in two's complement. *)
Fixpoint int16_samples (octets : Buffer) : list Z :=
  match octets with
  | lo :: hi :: octets =>
    (let u := (readUInt8 lo + 256 * readUInt8 hi)%Z in
     if bool_decide (u < 32768)%Z then u else (u - 65536)%Z)
    :: int16_samples octets
  | _ => []
  end.

(** The answers that report the keyword. *)
Definition reports (keywords : list Z) : nat :=
  length (filter (λ k, (0 ≤ k)%Z) keywords).

Definition is_silence_answer (ev : event) : bool :=
  match ev with
  | VadSettled _ (Resolved VAD.SILENCE) _ => true
  | _ => false
  end.

(** How many answers SILENCE a sequence of events delivers. *)
Definition silence_answers (evs : list event) : nat :=
  length (filter is_silence_answer evs).

Definition is_transcribed (o : output) : bool :=
  match o with Transcribed => true | _ => false end.

(** How many times [processUserSpeech] was called. *)
Definition transcriptions (t : list output) : nat :=
  length (filter is_transcribed t).

(** ** From the recorded file to the spoken reply

    [processUserSpeech], [processTranscription], [handleGeminiResponse],
    [setTimer] and [playSound] (lines 155-243).  The two remote calls answer
    through promises; as for the file write, the way each promise is settled
    is an argument of the function that starts the call.

    [args.minutes] is a JavaScript number: the numbers, their product, the
    numeric literals and the conversion to text done by a template literal
    are left abstract. *)
Section Reply.

Context {num : Type}.
Variable mul : num → num → num.
Variable lit : Z → num.
Variable show : num → string.

(** The value handed to [setTimer]: only [args.minutes] is read. *)
Record Args : Type := { minutes : num }.

Record FunctionCall : Type := { name : string; args : Args }.

(** A part of the reply.  Either field can be missing. *)
Record Part : Type := {
  functionCall : option FunctionCall;
  text : option string
}.

Record Content : Type := { parts : list Part }.

Record Candidate : Type := { content : Content }.

Record Response : Type := { candidates : list Candidate }.

Record Result : Type := { response : Response }.

Inductive groq_outcome : Type :=
| GroqResolved (transcription_text : string)
| GroqRejected.

Inductive gemini_outcome : Type :=
| GeminiResolved (result : Result)
| GeminiRejected.

(** What the reply pipeline does to the outside world. *)
Inductive action : Type :=
| CreateTranscription (filename model : string)
    (* groq.audio.transcriptions.create({file, model, ...}) *)
| StartChat (history : string)     (* model.startChat({history: [user text]}) *)
| SendMessage (message : string)   (* chatSession.sendMessage(message) *)
| ConsoleLog (line : string)       (* console.log(...) *)
| ConsoleError (line : string)     (* console.error(line, error) *)
| Say (sentence : string)          (* say.speak(sentence) *)
| SetTimeout (minutes milliseconds : num)
    (* setTimeout(() => ..., milliseconds), the callback holding minutes *)
| PlaySound (file : string).       (* player.play(file, ...) *)

(** [function playSound()] *)
Definition playSound (err : bool) : list action :=
  PlaySound "alarm.mp3"
  :: (if err then [ConsoleError "Error playing sound:"] else []).

(** The callback given to [setTimeout] by [setTimer]. *)
Definition timer_is_up (minutes : num) (err : bool) : list action :=
  [ConsoleLog ("Timer for " +:+ show minutes +:+ " minutes is up!");
   Say ("Timer for " +:+ show minutes +:+ " minutes is up!")]
  ++ playSound err.

(** [function setTimer(args)] *)
Definition setTimer (args : Args) : list action :=
  let minutes := minutes args in
  let milliseconds := mul (mul minutes (lit 60)) (lit 1000) in
  [ConsoleLog ("Setting a timer for " +:+ show minutes +:+ " minutes.");
   Say ("Setting a timer for " +:+ show minutes +:+ " minutes.");
   SetTimeout minutes milliseconds].

(** [responseText += part.text]: a missing text is appended as the text
    ["undefined"]. *)
Definition text_appended (part : Part) : string :=
  default "undefined" (text part).

(** The [for (let part of parts)] loop of [handleGeminiResponse]: one turn,
    on the pair of [responseText] and [functionCalls]. *)
Definition collect (acc : string * list FunctionCall) (part : Part)
  : string * list FunctionCall :=
  match functionCall part with
  | Some call =>
    (acc.1, acc.2 ++ [{| name := name call; args := args call |}])
  | None => (acc.1 +:+ text_appended part, acc.2)
  end.

(** [function handleGeminiResponse(result)].  [None]: a [TypeError] is
    thrown, [candidates[0]] being [undefined]. *)
Definition handleGeminiResponse (result : Result) : option (list action) :=
  candidate ← head (candidates (response result));
  let parts := parts (content candidate) in
  let '(responseText, functionCalls) := foldl collect ("", []) parts in
  Some ((if bool_decide (responseText = "") then []
         else [ConsoleLog ("Mark: " +:+ responseText); Say responseText])
        ++ mjoin ((λ func,
                    if bool_decide (name func = "setTimer")
                    then setTimer (args func) else [])
                  <$> functionCalls)).

(** [function processTranscription(transcribedText)]: the text is given as
    the history of the chat and sent as its message; [.catch] receives a
    rejection of the call as well as what [handleGeminiResponse] throws. *)
Definition processTranscription (g : gemini_outcome) (transcribedText : string)
  : list action :=
  [StartChat transcribedText; SendMessage transcribedText]
  ++ match g with
     | GeminiResolved result =>
       match handleGeminiResponse result with
       | Some done => done
       | None => [ConsoleError "Error in Gemini API:"]
       end
     | GeminiRejected => [ConsoleError "Error in Gemini API:"]
     end.

(** [function processUserSpeech(filename)] *)
Definition processUserSpeech (t : groq_outcome) (g : gemini_outcome)
    (filename : string) : list action :=
  CreateTranscription filename "whisper-large-v3"
  :: match t with
     | GroqResolved transcription_text =>
       ConsoleLog ("Transcription: " +:+ transcription_text)
       :: processTranscription g transcription_text
     | GroqRejected => [ConsoleError "Error in transcription:"]
     end.

(** *** Reading the actions and the parts *)

(** The sentences spoken, oldest first. *)
Definition said (acts : list action) : list string :=
  omap (λ a, match a with Say sentence => Some sentence | _ => None end) acts.

(** The timers started: minutes and delay, oldest first. *)
Definition timeouts (acts : list action) : list (num * num) :=
  omap (λ a, match a with SetTimeout m ms => Some (m, ms) | _ => None end) acts.

(** The texts sent to the chat model. *)
Definition sent (acts : list action) : list string :=
  omap (λ a, match a with SendMessage m => Some m | _ => None end) acts.

(** The texts of the parts that are not function calls, put end to end. *)
Fixpoint reply_text (parts : list Part) : string :=
  match parts with
  | [] => ""
  | part :: parts =>
    match functionCall part with
    | Some _ => reply_text parts
    | None => text_appended part +:+ reply_text parts
    end
  end.

(** The minutes asked for by the function calls named [setTimer], in the
    order of the parts. *)
Fixpoint timer_minutes (parts : list Part) : list num :=
  match parts with
  | [] => []
  | part :: parts =>
    match functionCall part with
    | Some call =>
      if bool_decide (name call = "setTimer")
      then minutes (args call) :: timer_minutes parts
      else timer_minutes parts
    | None => timer_minutes parts
    end
  end.

End Reply.

(** ** More sessions to run by hand *)
Module DemoMore.

(** Five octets in three chunks, with an engine that never reports: two
    frames are scanned and one octet is left. *)
Definition unheard_chunks : list Buffer := [[x01]; [x02; x03]; [x04; x05]].

Definition unheard : State (deaf 1) :=
  {| isRecording := false;
     speechBuffer := [];
     audioBuffer := [x05];
     engineState := (tt : engine (deaf 1));
     vadPending := [];
     trace := [Scanned [x01; x02] [513%Z] (-1)%Z;
               Scanned [x03; x04] [1027%Z] (-1)%Z];
     exited := false |}.


Definition stopped_twice : State (eager 1) :=
  {| isRecording := false;
     speechBuffer := [[x05; x06]; [x07; x08]];
     audioBuffer := [x03; x04];
     engineState := (tt : engine (eager 1));
     vadPending := [];
     trace := [Scanned [x01; x02] [513%Z] 0%Z; WakeEvent;
               SilenceEvent; Finalized [x05; x06; x07; x08]; Transcribed;
               SilenceEvent; Finalized [x05; x06; x07; x08]; Transcribed];
     exited := true |}.

(** The run [Demo.late_answer], state by state: two chunks are recorded and
    both classifications are in flight; the first answers SILENCE; the next
    chunk raises the wake event while the second is still in flight. *)
Definition in_flight : State (eager 1) :=
  {| isRecording := true;
     speechBuffer := [[x03; x04]; [x05; x06]];
     audioBuffer := [];
     engineState := (tt : engine (eager 1));
     vadPending := [([x03; x04], 16000%Z); ([x05; x06], 16000%Z)];
     trace := [Scanned [x01; x02] [513%Z] 0%Z; WakeEvent];
     exited := false |}.


Definition woken_early : State (eager 1) :=
  {| isRecording := true;
     speechBuffer := [];
     audioBuffer := [];
     engineState := (tt : engine (eager 1));
     vadPending := [([x05; x06], 16000%Z)];
     trace := [Scanned [x01; x02] [513%Z] 0%Z; WakeEvent;
               SilenceEvent; Finalized [x03; x04; x05; x06]; Transcribed;
               Scanned [x07; x08] [2055%Z] 0%Z; WakeEvent];
     exited := false |}.

(** The classification of the one chunk recorded is rejected. *)
Definition rejected : State (eager 1) :=
  {| isRecording := true;
     speechBuffer := [[x05; x06]];
     audioBuffer := [x03; x04];
     engineState := (tt : engine (eager 1));
     vadPending := [];
     trace := [Scanned [x01; x02] [513%Z] 0%Z; WakeEvent];
     exited := true |}.

(** A reply with a text, a timer, a call by another name and a part that
    has neither a text nor a call; the minutes are integers. *)
Definition reply : @Result Z :=
  {| response := {| candidates := [
       {| content := {| parts := [
            {| functionCall := None; text := Some "On it. " |};
            {| functionCall :=
                 Some {| name := "setTimer"; args := {| minutes := 5%Z |} |};
               text := None |};
            {| functionCall :=
                 Some {| name := "openDoor"; args := {| minutes := 1%Z |} |};
               text := Some "ignored" |};
            {| functionCall := None; text := None |}] |} |}] |} |}.

End DemoMore.

(** ** The scanning loop *)

Section Facts.

Context (porcupine : Porcupine).
Implicit Types (st : State porcupine) (t outs : list output).
Abbreviation fl := (frameLength porcupine).

Example readInt16LE_values :
  readInt16LE [x01; x02] 0 = Some 513%Z
  ∧ readInt16LE [xff; xff] 0 = Some (-1)%Z
  ∧ readInt16LE [x00; x80] 0 = Some (-32768)%Z
  ∧ readInt16LE [xff; x7f; x00] 0 = Some 32767%Z
  ∧ readInt16LE [x01; x02; x03] 2 = None.
Proof. repeat split. Qed.

Lemma readInt16LE_in_range (buf : Buffer) (offset : nat) :
  offset + 2 ≤ length buf → is_Some (readInt16LE buf offset).
Proof.
  intros Hlen. unfold readInt16LE.
  destruct (lookup_lt_is_Some_2 buf offset) as [lo ->]; [lia|].
  destruct (lookup_lt_is_Some_2 buf (offset + 1)) as [hi ->]; [lia|].
  simpl. eauto.
Qed.

Lemma to_pcm_Some (frame : Buffer) :
  length frame = fl * 2 →
  ∃ pcm, to_pcm porcupine frame = Some pcm ∧ length pcm = fl.
Proof.
  intros Hlen. unfold to_pcm.
  destruct (mapM_is_Some_2 (λ i, readInt16LE frame (i * 2)) (seq 0 fl))
    as [pcm Hpcm].
  - apply Forall_forall. intros i Hi. apply elem_of_seq in Hi.
    simpl. apply readInt16LE_in_range. lia.
  - exists pcm. split; [done|].
    apply length_mapM in Hpcm. rewrite length_seq in Hpcm. done.
Qed.

(** What one run of the loop does when it returns.  Either it reports the
    keyword on its last frame and calls [startUserSpeechRecording], or it
    runs until less than a frame is left. *)
Lemma scan_loop_inv fuel st st' :
  scan_loop fuel st = Some st' →
  ∃ outs,
    Forall (scan_ok porcupine) outs
    ∧ concat (scanned_frames outs) ++ audioBuffer st' = audioBuffer st
    ∧ vadPending st' = vadPending st
    ∧ ((∃ outs' frame pcm keywordIndex,
          outs = outs' ++ [Scanned frame pcm keywordIndex]
          ∧ Forall no_keyword outs'
          ∧ (0 ≤ keywordIndex)%Z
          ∧ (∃ e, keywordIndex = (process porcupine pcm e).1)
          ∧ isRecording st' = true
          ∧ speechBuffer st' = []
          ∧ trace st' = trace st ++ outs ++ [WakeEvent])
       ∨ (Forall no_keyword outs
          ∧ isRecording st' = isRecording st
          ∧ speechBuffer st' = speechBuffer st
          ∧ trace st' = trace st ++ outs
          ∧ length (audioBuffer st') < fl * 2)).
Proof.
  revert st. induction fuel as [|fuel IH]; intros st Hrun; [done|].
  simpl in Hrun. case_bool_decide as Hframe.
  - destruct (to_pcm porcupine (take (fl * 2) (audioBuffer st)))
      as [pcm|] eqn:Hpcm; [|done].
    simpl in Hrun.
    assert (length pcm = fl) as Hlen.
    { apply length_mapM in Hpcm. by rewrite length_seq in Hpcm. }
    assert (scan_ok porcupine (Scanned (take (fl * 2) (audioBuffer st)) pcm
                             (process porcupine pcm (engineState st)).1))
      as Hok.
    { simpl. by rewrite length_take_le by lia. }
    destruct (process porcupine pcm (engineState st)) as [kw e] eqn:Hproc.
    simpl in Hok. case_bool_decide as Hkw.
    + injection Hrun as <-.
      exists [Scanned (take (fl * 2) (audioBuffer st)) pcm kw].
      simpl. rewrite app_nil_r, take_drop.
      repeat split; try done.
      * by constructor.
      * left. exists [], (take (fl * 2) (audioBuffer st)), pcm, kw.
        repeat split; try done.
        -- exists (engineState st). by rewrite Hproc.
        -- by rewrite <- app_assoc.
    + apply IH in Hrun as (outs & Hoks & Hcat & Hpend & Hcase).
      simpl in *.
      exists (Scanned (take (fl * 2) (audioBuffer st)) pcm kw :: outs).
      simpl. repeat split.
      * by constructor.
      * rewrite <- app_assoc, Hcat. apply take_drop.
      * done.
      * destruct Hcase
          as [(outs' & f & p & k & -> & Hneg & Hk & He & Hrec & Hsb & Htr)
             |(Hneg & Hrec & Hsb & Htr & Hres)].
        -- left.
           exists (Scanned (take (fl * 2) (audioBuffer st)) pcm kw :: outs'),
                  f, p, k.
           repeat split; try done.
           ++ constructor; [simpl; lia|done].
           ++ rewrite Htr, <- !app_assoc. done.
        -- right. repeat split; try done.
           ++ constructor; [simpl; lia|done].
           ++ rewrite Htr, <- !app_assoc. done.
  - injection Hrun as <-. exists []. simpl. repeat split; try done.
    right. rewrite app_nil_r. repeat split; try done. lia.
Qed.

(** With a positive frame length every iteration shortens [audioBuffer], so
    the loop ends within [length audioBuffer + 1] iterations. *)
Lemma scan_loop_terminates (Hfl : 0 < fl) fuel st :
  length (audioBuffer st) < fuel → is_Some (scan_loop fuel st).
Proof.
  revert st. induction fuel as [|fuel IH]; intros st Hfuel; [lia|].
  simpl. case_bool_decide as Hframe; [|eauto].
  destruct (to_pcm_Some (take (fl * 2) (audioBuffer st)))
    as (pcm & -> & _); [rewrite length_take_le; lia|].
  simpl. destruct (process porcupine pcm (engineState st)) as [kw e].
  case_bool_decide; [eauto|].
  apply IH. simpl. rewrite length_drop. lia.
Qed.

(** ** The handlers *)

Lemma on_data_returns (Hfl : 0 < fl) data st : is_Some (on_data data st).
Proof.
  unfold on_data. destruct (isRecording st); cbn [negb].
  { destruct (Nat.even (length data)); eauto. }
  apply scan_loop_terminates; [done|]. lia.
Qed.

Lemma on_data_recording data st :
  isRecording st = true →
  on_data data st =
    Some (if Nat.even (length data)
          then set_vadPending (vadPending st ++ [(data, sampleRate porcupine)])
                 (set_speechBuffer (speechBuffer st ++ [data]) st)
          else exit (set_speechBuffer (speechBuffer st ++ [data]) st)).
Proof.
  intros Hrec. unfold on_data. rewrite Hrec. simpl.
  by destruct (Nat.even (length data)).
Qed.

Lemma step_handle ev st st' :
  step ev st = Some st' ↔ exited st = false ∧ handle ev st = Some st'.
Proof.
  unfold step. destruct (exited st); [|by intuition].
  split; [done|]. by intros [? _].
Qed.

Lemma on_data_listening data st :
  isRecording st = false →
  on_data data st =
    scan_loop (S (length (audioBuffer st ++ data)))
              (set_audioBuffer (audioBuffer st ++ data) st).
Proof. intros Hrec. unfold on_data. by rewrite Hrec. Qed.

Lemma stop_trace io st :
  trace (stopUserSpeechRecording io st) =
    trace st
    ++ [SilenceEvent; Finalized (concat (speechBuffer st)); Transcribed].
Proof. destruct io; simpl; rewrite <- ?app_assoc; done. Qed.

Lemma stop_finalized io st :
  finalized (trace (stopUserSpeechRecording io st)) =
    finalized (trace st) ++ [concat (speechBuffer st)].
Proof.
  rewrite stop_trace. unfold finalized. by rewrite !omap_app.
Qed.

Lemma stop_silence_events io st :
  silence_events (trace (stopUserSpeechRecording io st)) =
    silence_events (trace st) + 1.
Proof.
  rewrite stop_trace. unfold silence_events.
  by rewrite !filter_app, !length_app.
Qed.

(** ** One recording phase *)

(** The three things that can happen in RECORDING: a chunk is buffered and
    its classification requested; an answer other than SILENCE (or a
    rejection) is dropped; the answer SILENCE stops the recording. *)
Lemma step_recording_cases ev st st' :
  isRecording st = true →
  step ev st = Some st' →
  (∃ data, ev = MicData data
     ∧ st' = if Nat.even (length data)
             then set_vadPending
                    (vadPending st ++ [(data, sampleRate porcupine)])
                    (set_speechBuffer (speechBuffer st ++ [data]) st)
             else exit (set_speechBuffer (speechBuffer st ++ [data]) st))
  ∨ (∃ k o io, ev = VadSettled k o io
       ∧ o ≠ Resolved VAD.SILENCE
       ∧ is_Some (vadPending st !! k)
       ∧ st' = (if o is Rejected then exit else id)
                 (set_vadPending (delete k (vadPending st)) st))
  ∨ (∃ k io, ev = VadSettled k (Resolved VAD.SILENCE) io
       ∧ is_Some (vadPending st !! k)
       ∧ st' = stopUserSpeechRecording io
                 (set_vadPending (delete k (vadPending st)) st)).
Proof.
  intros Hrec [_ Hstep]%step_handle.
  destruct ev as [data|k o io]; simpl in Hstep.
  - left. exists data. split; [done|].
    rewrite on_data_recording in Hstep by done. by injection Hstep as <-.
  - assert (is_Some (vadPending st !! k)) as Hk.
    { destruct (vadPending st !! k); [eauto|done]. }
    destruct Hk as [p Hk]. rewrite Hk in Hstep.
    simpl in Hstep. injection Hstep as <-.
    assert (is_Some (vadPending st !! k)) as Hsome by eauto.
    destruct o as [[]|]; simpl;
      first [ right; right; exists k, io; by repeat split
            | right; left; eexists k, _, io; by repeat split ].
Qed.


Lemma chunks_of_cons ev evs :
  chunks_of (ev :: evs) = chunks_of [ev] ++ chunks_of evs.
Proof. by destruct ev. Qed.

(** A step taken in RECORDING leaves the scanner alone: its residual octets,
    the engine, the frames scanned and the wake events stay as they are.  It
    buffers the chunk it delivers, if any, and if it stays in RECORDING it
    has done nothing to the outside world. *)
Lemma step_recording_inv ev st st' :
  isRecording st = true →
  step ev st = Some st' →
  audioBuffer st' = audioBuffer st
  ∧ engineState st' = engineState st
  ∧ speechBuffer st' = speechBuffer st ++ chunks_of [ev]
  ∧ scanned_frames (trace st') = scanned_frames (trace st)
  ∧ wake_events (trace st') = wake_events (trace st)
  ∧ (isRecording st' = true → trace st' = trace st).
Proof.
  intros Hrec Hstep.
  destruct (step_recording_cases _ _ _ Hrec Hstep)
    as [(data & -> & ->)|[(k & o & io & -> & _ & _ & ->)|(k & io & -> & _ & ->)]];
    try destruct (Nat.even (length data)); try destruct o as [[]|];
    try destruct io; simpl; rewrite ?app_nil_r; repeat split; try done;
    unfold scanned_frames, wake_events;
    rewrite ?omap_app, ?filter_app, ?length_app; simpl;
    rewrite ?app_nil_r; lia || done.
Qed.

Lemma run_while_recording_start ev evs st st' :
  run_while_recording (ev :: evs) st = Some st' → isRecording st = true.
Proof. simpl. by destruct (isRecording st). Qed.

Lemma run_while_recording_cons ev evs st st' :
  run_while_recording (ev :: evs) st = Some st' ↔
  isRecording st = true
  ∧ ∃ st1, step ev st = Some st1 ∧ run_while_recording evs st1 = Some st'.
Proof.
  simpl. destruct (isRecording st).
  - destruct (step ev st) as [st1|]; simpl; split.
    + intros Hrun. split; [done|]. by exists st1.
    + by intros (_ & st1' & [= <-] & Hrun).
    + done.
    + by intros (_ & st1' & Hstep & _).
  - split; [done|]. by intros [Hrec _].
Qed.


Lemma run_while_recording_run evs st st' :
  run_while_recording evs st = Some st' → run evs st = Some st'.
Proof.
  revert st. induction evs as [|ev evs IH]; intros st; [done|].
  rewrite run_while_recording_cons. intros (_ & st1 & Hstep & Hrun).
  simpl. rewrite Hstep. simpl. by apply IH.
Qed.

(** Throughout a recording phase the scanner is left alone, and the speech
    buffer grows by exactly the chunks delivered. *)
Lemma run_while_recording_inv evs st st' :
  run_while_recording evs st = Some st' →
  audioBuffer st' = audioBuffer st
  ∧ engineState st' = engineState st
  ∧ speechBuffer st' = speechBuffer st ++ chunks_of evs
  ∧ scanned_frames (trace st') = scanned_frames (trace st)
  ∧ wake_events (trace st') = wake_events (trace st)
  ∧ (isRecording st' = true → trace st' = trace st).
Proof.
  revert st. induction evs as [|ev evs IH]; intros st Hrun.
  - injection Hrun as <-. simpl. by rewrite app_nil_r.
  - apply run_while_recording_cons in Hrun as (Hrec & st1 & Hstep & Hrun).
    destruct (step_recording_inv _ _ _ Hrec Hstep)
      as (Hab & He & Hsb & Hsc & Hw & Htr).
    destruct (IH _ Hrun) as (Hab' & He' & Hsb' & Hsc' & Hw' & Htr').
    rewrite chunks_of_cons, Hab', He', Hsb', Hsc', Hw', Hab, He, Hsb, Hsc, Hw.
    rewrite <- app_assoc. repeat split; try done.
    intros Hrec'. rewrite Htr' by done. apply Htr.
    destruct evs as [|ev' evs]; [by injection Hrun as ->|].
    by eapply run_while_recording_start.
Qed.

(** As long as no answer SILENCE is delivered, the session stays in
    RECORDING. *)
Lemma run_without_silence evs st st' :
  isRecording st = true →
  Forall no_silence_result evs →
  run evs st = Some st' →
  run_while_recording evs st = Some st' ∧ isRecording st' = true.
Proof.
  revert st. induction evs as [|ev evs IH]; intros st Hrec Hns Hrun.
  - by injection Hrun as <-.
  - apply Forall_cons in Hns as [Hev Hns]. simpl in Hrun.
    destruct (step ev st) as [st1|] eqn:Hstep; [|done]. simpl in Hrun.
    assert (isRecording st1 = true) as Hrec1.
    { destruct (step_recording_cases _ _ _ Hrec Hstep)
        as [(data & -> & ->)|[(k & o & io & -> & _ & _ & ->)|(k & io & -> & _)]];
        [by destruct (Nat.even (length data))|by destruct o|done]. }
    destruct (IH st1 Hrec1 Hns Hrun) as [Hrwr Hrec'].
    split; [|done]. apply run_while_recording_cons. eauto.
Qed.

(** ** The frame segmenter *)

Lemma length_concat_frames (n : nat) (frames : list Buffer) :
  Forall (λ f, length f = n) frames →
  length (concat frames) = length frames * n.
Proof.
  induction 1 as [|f frames Hf _ IH]; [done|].
  simpl. rewrite length_app, IH, Hf. lia.
Qed.

Lemma scan_ok_frames outs :
  Forall (scan_ok porcupine) outs →
  Forall (λ f, length f = fl * 2) (scanned_frames outs)
  ∧ Forall (λ pcm, length pcm = fl) (scanned_pcm outs)
  ∧ mapM (to_pcm porcupine) (scanned_frames outs) = Some (scanned_pcm outs).
Proof.
  induction 1 as [|o outs Ho _ (IHf & IHp & IHm)]; [done|].
  destruct o as [frame pcm kw| | | |]; try done.
  destruct Ho as (Hf & Hpcm & Hp). cbn.
  repeat split; try by constructor.
  unfold scanned_frames, scanned_pcm in IHm. by rewrite Hpcm, IHm.
Qed.

(** ** Wake and silence events *)

Lemma wake_events_app t1 t2 :
  wake_events (t1 ++ t2) = wake_events t1 + wake_events t2.
Proof. unfold wake_events. by rewrite filter_app, length_app. Qed.

Lemma no_keyword_quiet outs :
  Forall no_keyword outs → wake_events outs = 0 ∧ finalized outs = [].
Proof.
  induction 1 as [|o outs Ho _ [IHw IHf]]; [done|].
  by destruct o.
Qed.

Lemma finalized_app t1 t2 : finalized (t1 ++ t2) = finalized t1 ++ finalized t2.
Proof. apply omap_app. Qed.

Lemma scanned_frames_app t1 t2 :
  scanned_frames (t1 ++ t2) = scanned_frames t1 ++ scanned_frames t2.
Proof. apply omap_app. Qed.

Lemma step_silence k io st st' :
  step (VadSettled k (Resolved VAD.SILENCE) io) st = Some st' →
  st' = stopUserSpeechRecording io
          (set_vadPending (delete k (vadPending st)) st).
Proof.
  intros [_ Hstep]%step_handle. simpl in Hstep.
  destruct (vadPending st !! k); simpl in Hstep; [|done].
  by injection Hstep as <-.
Qed.

(** What a chunk does to a session in LISTENING: the frames it completes are
    scanned one after the other, and the first that reports the keyword, if
    any, starts the recording and ends the scan. *)
Lemma on_data_listening_inv data st st1 :
  isRecording st = false →
  on_data data st = Some st1 →
  ∃ outs,
    Forall (scan_ok porcupine) outs
    ∧ concat (scanned_frames outs) ++ audioBuffer st1 = audioBuffer st ++ data
    ∧ vadPending st1 = vadPending st
    ∧ ((∃ outs' frame pcm keywordIndex,
          outs = outs' ++ [Scanned frame pcm keywordIndex]
          ∧ Forall no_keyword outs'
          ∧ (0 ≤ keywordIndex)%Z
          ∧ isRecording st1 = true
          ∧ speechBuffer st1 = []
          ∧ trace st1 = trace st ++ outs ++ [WakeEvent])
       ∨ (Forall no_keyword outs
          ∧ isRecording st1 = false
          ∧ speechBuffer st1 = speechBuffer st
          ∧ trace st1 = trace st ++ outs
          ∧ length (audioBuffer st1) < fl * 2)).
Proof.
  intros Hrec Hst1. rewrite on_data_listening in Hst1 by done.
  apply scan_loop_inv in Hst1 as (outs & Hok & Hcat & Hpend & Hcase).
  simpl in *. exists outs. repeat split; try done.
  destruct Hcase
    as [(outs' & f & p & k & -> & Hneg & Hk & He & Hrec1 & Hsb & Htr)
       |(Hneg & Hrec1 & Hsb & Htr & Hres)].
  - left. exists outs', f, p, k. by repeat split.
  - right. repeat split; (done || congruence).
Qed.

(** C5 (edge triggering).  A chunk that arrives in LISTENING raises at most
    one wake event: one if the session is in RECORDING afterwards, none
    otherwise.  From then on, whatever the engine would answer, as long as
    the session is in RECORDING no further wake event is raised: the engine
    is not even called, no frame is handed to it and its state stays as it
    was. *)
Theorem wake_is_edge_triggered data st st1 evs st2 :
  isRecording st = false →
  on_data data st = Some st1 →
  run_while_recording evs st1 = Some st2 →
  wake_events (trace st1)
    = wake_events (trace st) + (if isRecording st1 then 1 else 0)
  ∧ wake_events (trace st2) = wake_events (trace st1)
  ∧ scanned_frames (trace st2) = scanned_frames (trace st1)
  ∧ engineState st2 = engineState st1.
Proof.
  intros Hrec Hst1 Hrun.
  destruct (run_while_recording_inv _ _ _ Hrun) as (_ & He & _ & Hsc & Hw & _).
  repeat split; try done.
  destruct (on_data_listening_inv _ _ _ Hrec Hst1)
    as (outs & _ & _ & _ & Hcase).
  destruct Hcase
    as [(quiet & f & p & k & -> & Hquiet & _ & -> & _ & ->)
       |(Hquiet & -> & _ & -> & _)];
    rewrite !wake_events_app; destruct (no_keyword_quiet _ Hquiet) as [-> _];
    done.
Qed.

(** C6 (no debounce).  Start in RECORDING.  As long as only chunks,
    rejections and answers other than SILENCE are delivered, the session
    stays in RECORDING and neither a silence event nor a finalization
    happens.  The first answer SILENCE, whatever came before it, raises the
    silence event at once: the session is in LISTENING and the audio
    buffered so far has been handed to [saveAudioToFile]. *)
Theorem first_silence_ends_recording evs k io st st1 st2 :
  isRecording st = true →
  Forall no_silence_result evs →
  run evs st = Some st1 →
  step (VadSettled k (Resolved VAD.SILENCE) io) st1 = Some st2 →
  (isRecording st1 = true ∧ trace st1 = trace st)
  ∧ isRecording st2 = false
  ∧ silence_events (trace st2) = silence_events (trace st) + 1
  ∧ finalized (trace st2)
    = finalized (trace st) ++ [concat (speechBuffer st ++ chunks_of evs)].
Proof.
  intros Hrec Hquiet Hrun Hstep.
  destruct (run_without_silence _ _ _ Hrec Hquiet Hrun) as [Hrwr Hrec1].
  destruct (run_while_recording_inv _ _ _ Hrwr) as (_ & _ & Hsb & _ & _ & Htr).
  specialize (Htr Hrec1).
  apply step_silence in Hstep as ->.
  rewrite stop_silence_events, stop_finalized. simpl.
  rewrite Htr, Hsb. repeat split; try done. by destruct io.
Qed.

Lemma run_while_recording_exited evs st st' :
  exited st = true → run_while_recording evs st = Some st' → st' = st.
Proof.
  intros Hex Hrun. destruct evs as [|ev evs]; [by injection Hrun|].
  apply run_while_recording_cons in Hrun as (_ & st1 & Hstep & _).
  apply step_handle in Hstep as [Halive _]. congruence.
Qed.

(** C9, as the code has it.  In RECORDING the handler pushes the chunk on
    [speechBuffer] and only then asks for its classification, whose answer
    is still outstanding when the handler returns.  If the answer SILENCE
    for that chunk is delivered in the recording phase in which the chunk
    arrived, and so ends that phase, the chunk is part of the audio that is
    finalized. *)
Theorem chunk_buffered_before_classified data st st1 evs st2 k rate io st3 :
  isRecording st = true →
  on_data data st = Some st1 →
  run_while_recording evs st1 = Some st2 →
  isRecording st2 = true →
  vadPending st2 !! k = Some (data, rate) →
  step (VadSettled k (Resolved VAD.SILENCE) io) st2 = Some st3 →
  speechBuffer st1 = speechBuffer st ++ [data]
  ∧ vadPending st1 = vadPending st ++ [(data, sampleRate porcupine)]
  ∧ trace st1 = trace st
  ∧ isRecording st3 = false
  ∧ finalized (trace st3)
    = finalized (trace st)
      ++ [concat (speechBuffer st) ++ data ++ concat (chunks_of evs)].
Proof.
  intros Hrec Hst1 Hrun Hrec2 _ Hstep.
  rewrite on_data_recording in Hst1 by done. injection Hst1 as <-.
  destruct (Nat.even (length data)) eqn:Heven; last first.
  { apply run_while_recording_exited in Hrun as ->; [|done].
    by apply step_handle in Hstep as [Halive _]. }
  destruct (run_while_recording_inv _ _ _ Hrun) as (_ & _ & Hsb & _ & _ & Htr).
  specialize (Htr Hrec2). simpl in Hsb, Htr.
  apply step_silence in Hstep as ->.
  rewrite stop_finalized. simpl. rewrite Htr, Hsb.
  repeat split; try by destruct io.
  by rewrite !concat_app, <- !app_assoc; simpl; rewrite app_nil_r.
Qed.

(** ** The residual octets of the scanner *)

(** A step taken in RECORDING does not look at [audioBuffer]: with other
    octets there it does the same, and leaves those octets there. *)
Lemma step_recording_frame ab ev st st' :
  isRecording st = true →
  step ev st = Some st' →
  step ev (set_audioBuffer ab st) = Some (set_audioBuffer ab st').
Proof.
  intros Hrec [Halive Hstep]%step_handle. apply step_handle.
  split; [done|]. destruct ev as [data|k o io]; simpl in *.
  - rewrite on_data_recording in * by done.
    injection Hstep as <-. by destruct (Nat.even (length data)).
  - destruct (vadPending st !! k); simpl in *; [|done].
    injection Hstep as <-. by destruct o as [[]|], io.
Qed.

Lemma run_while_recording_frame ab evs st st' :
  run_while_recording evs st = Some st' →
  run_while_recording evs (set_audioBuffer ab st)
    = Some (set_audioBuffer ab st').
Proof.
  revert st. induction evs as [|ev evs IH]; intros st Hrun.
  - by injection Hrun as <-.
  - apply run_while_recording_cons in Hrun as (Hrec & st1 & Hstep & Hrun).
    apply run_while_recording_cons. split; [done|].
    exists (set_audioBuffer ab st1).
    split; [by apply step_recording_frame|by apply IH].
Qed.

(** C10 (the residual buffer during RECORDING).  Take a recording phase,
    from a state in RECORDING to the state in which the session is back in
    LISTENING.  The octets that [audioBuffer] held at the start are still
    there, unchanged; the phase would have run in the same way with any
    other octets there, so they were not read; and the next chunk that
    arrives is appended to them, so that the frames scanned next are cut
    from the old octets followed by the new chunk. *)
Theorem residual_untouched_while_recording evs st st' data st'' :
  isRecording st = true →
  run_while_recording evs st = Some st' →
  isRecording st' = false →
  on_data data st' = Some st'' →
  audioBuffer st' = audioBuffer st
  ∧ (∀ ab, run_while_recording evs (set_audioBuffer ab st)
           = Some (set_audioBuffer ab st'))
  ∧ ∃ frames,
      scanned_frames (trace st'') = scanned_frames (trace st') ++ frames
      ∧ concat frames ++ audioBuffer st'' = audioBuffer st ++ data.
Proof.
  intros _ Hrun Hrec' Hnext.
  destruct (run_while_recording_inv _ _ _ Hrun) as (Hab & _).
  split; [done|]. split; [intros ab; by apply run_while_recording_frame|].
  destruct (on_data_listening_inv _ _ _ Hrec' Hnext)
    as (outs & _ & Hcat & _ & Hcase).
  exists (scanned_frames outs). rewrite <- Hab. split; [|done].
  destruct Hcase as [(_ & _ & _ & _ & _ & _ & _ & _ & _ & ->)
                    |(_ & _ & _ & -> & _)];
    rewrite !scanned_frames_app; simpl; by rewrite ?app_nil_r.
Qed.

(** ** What is finalized *)








(** C8, as the code has it.  [stopUserSpeechRecording] sets the mode to
    LISTENING first and then hands the buffered audio to [saveAudioToFile],
    after which [processUserSpeech] is called on the file.  There is no
    guard: with nothing buffered, an empty audio buffer is handed over in
    the same way. *)
Theorem finalization_has_no_guard io st :
  isRecording (stopUserSpeechRecording io st) = false
  ∧ trace (stopUserSpeechRecording io st)
    = trace st
      ++ [SilenceEvent; Finalized (concat (speechBuffer st)); Transcribed]
  ∧ finalized (trace (stopUserSpeechRecording io (set_speechBuffer [] st)))
    = finalized (trace st) ++ [[]].
Proof.
  split; [by destruct io|]. split; [apply stop_trace|].
  by rewrite stop_finalized.
Qed.

End Facts.

(** ** Runs on concrete engines *)

(** The session of [Demo], step by step. *)
Lemma demo_session :
  on_data Demo.wake_chunk Demo.fresh = Some Demo.woken
  ∧ on_data [x05; x06] Demo.woken = Some Demo.one_chunk
  ∧ on_data [x07; x08] Demo.one_chunk = Some Demo.two_chunks
  ∧ step (VadSettled 0 (Resolved VAD.VOICE) IoFinish) Demo.two_chunks
    = Some Demo.voiced
  ∧ step Demo.last_answer Demo.voiced = Some Demo.stopped
  ∧ on_data [x09; x0a] Demo.stopped = Some Demo.woken_again.
Proof. repeat split; vm_compute; reflexivity. Qed.





(** C4 holds of no run of the code.  The classification of the one chunk
    recorded is rejected: the callback given to [.then] does not run, no
    silence event is raised and nothing is finalized; the mode is still
    RECORDING when the rejection, which nothing handles, ends the process,
    and no event is handled after that. *)
Lemma rejected_classification_raises_no_silence :
  run [MicData Demo.wake_chunk; MicData [x05; x06]] Demo.fresh
    = Some Demo.one_chunk
  ∧ vadPending Demo.one_chunk !! 0 = Some ([x05; x06], 16000%Z)
  ∧ step (VadSettled 0 Rejected IoFinish) Demo.one_chunk
    = Some DemoMore.rejected
  ∧ isRecording DemoMore.rejected = true
  ∧ silence_events (trace DemoMore.rejected) = 0
  ∧ finalized (trace DemoMore.rejected) = []
  ∧ exited DemoMore.rejected = true
  ∧ ∀ ev, step ev DemoMore.rejected = None.
Proof. repeat split; vm_compute; reflexivity. Qed.

Lemma wake_is_edge_triggered_witness :
  isRecording Demo.fresh = false
  ∧ on_data Demo.wake_chunk Demo.fresh = Some Demo.woken
  ∧ run_while_recording Demo.recording_phase Demo.woken = Some Demo.voiced
  ∧ wake_events (trace Demo.woken)
    = wake_events (trace Demo.fresh)
      + (if isRecording Demo.woken then 1 else 0)
  ∧ wake_events (trace Demo.voiced) = wake_events (trace Demo.woken)
  ∧ scanned_frames (trace Demo.voiced) = scanned_frames (trace Demo.woken)
  ∧ engineState Demo.voiced = engineState Demo.woken.
Proof.
  do 3 (split; [reflexivity|]).
  apply (wake_is_edge_triggered (eager 1) Demo.wake_chunk Demo.fresh
           Demo.woken Demo.recording_phase Demo.voiced); reflexivity.
Defined.

Lemma first_silence_ends_recording_witness :
  isRecording Demo.woken = true
  ∧ Forall no_silence_result Demo.recording_phase
  ∧ run Demo.recording_phase Demo.woken = Some Demo.voiced
  ∧ step (VadSettled 0 (Resolved VAD.SILENCE) IoFinish) Demo.voiced
    = Some Demo.stopped
  ∧ (isRecording Demo.voiced = true ∧ trace Demo.voiced = trace Demo.woken)
  ∧ isRecording Demo.stopped = false
  ∧ silence_events (trace Demo.stopped)
    = silence_events (trace Demo.woken) + 1
  ∧ finalized (trace Demo.stopped)
    = finalized (trace Demo.woken)
      ++ [concat (speechBuffer Demo.woken ++ chunks_of Demo.recording_phase)].
Proof.
  assert (Forall no_silence_result Demo.recording_phase) as Hquiet
    by (repeat constructor).
  split; [reflexivity|]. split; [exact Hquiet|].
  do 2 (split; [reflexivity|]).
  apply (first_silence_ends_recording (eager 1) Demo.recording_phase 0
           IoFinish Demo.woken Demo.voiced Demo.stopped);
    [reflexivity|exact Hquiet|reflexivity|reflexivity].
Defined.

Lemma chunk_buffered_before_classified_witness :
  isRecording Demo.one_chunk = true
  ∧ on_data [x07; x08] Demo.one_chunk = Some Demo.two_chunks
  ∧ run_while_recording [VadSettled 0 (Resolved VAD.VOICE) IoFinish]
      Demo.two_chunks = Some Demo.voiced
  ∧ isRecording Demo.voiced = true
  ∧ vadPending Demo.voiced !! 0 = Some ([x07; x08], 16000%Z)
  ∧ step (VadSettled 0 (Resolved VAD.SILENCE) IoFinish) Demo.voiced
    = Some Demo.stopped
  ∧ speechBuffer Demo.two_chunks = speechBuffer Demo.one_chunk ++ [[x07; x08]]
  ∧ vadPending Demo.two_chunks
    = vadPending Demo.one_chunk ++ [([x07; x08], sampleRate (eager 1))]
  ∧ trace Demo.two_chunks = trace Demo.one_chunk
  ∧ isRecording Demo.stopped = false
  ∧ finalized (trace Demo.stopped)
    = finalized (trace Demo.one_chunk)
      ++ [concat (speechBuffer Demo.one_chunk) ++ [x07; x08]
          ++ concat (chunks_of [VadSettled 0 (Resolved VAD.VOICE) IoFinish])].
Proof.
  do 6 (split; [reflexivity|]).
  apply (chunk_buffered_before_classified (eager 1) [x07; x08] Demo.one_chunk
           Demo.two_chunks [VadSettled 0 (Resolved VAD.VOICE) IoFinish]
           Demo.voiced 0 16000%Z IoFinish Demo.stopped); reflexivity.
Defined.

Lemma residual_untouched_while_recording_witness :
  isRecording Demo.woken = true
  ∧ run_while_recording (Demo.recording_phase ++ [Demo.last_answer]) Demo.woken
    = Some Demo.stopped
  ∧ isRecording Demo.stopped = false
  ∧ on_data [x09; x0a] Demo.stopped = Some Demo.woken_again
  ∧ audioBuffer Demo.stopped = audioBuffer Demo.woken
  ∧ (∀ ab,
       run_while_recording (Demo.recording_phase ++ [Demo.last_answer])
         (set_audioBuffer ab Demo.woken)
       = Some (set_audioBuffer ab Demo.stopped))
  ∧ ∃ frames,
      scanned_frames (trace Demo.woken_again)
      = scanned_frames (trace Demo.stopped) ++ frames
      ∧ concat frames ++ audioBuffer Demo.woken_again
        = audioBuffer Demo.woken ++ [x09; x0a].
Proof.
  do 4 (split; [reflexivity|]).
  apply (residual_untouched_while_recording (eager 1)
           (Demo.recording_phase ++ [Demo.last_answer]) Demo.woken
           Demo.stopped [x09; x0a] Demo.woken_again); reflexivity.
Defined.


(** C9 fails as stated for an answer that comes late.  In the run
    [Demo.late_answer] the chunk 5 6 is pushed on the speech buffer in
    RECORDING, before its classification is asked for.  Its answer SILENCE
    is delivered when the next wake event has emptied the speech buffer: it
    raises the silence event, and the audio finalized then is empty, the
    chunk is not part of it. *)
Lemma late_answer_chunk_not_finalized :
  run [MicData [x01; x02]; MicData [x03; x04]; MicData [x05; x06]]
      Demo.fresh = Some DemoMore.in_flight
  ∧ speechBuffer DemoMore.in_flight = [[x03; x04]; [x05; x06]]
  ∧ run [VadSettled 0 (Resolved VAD.SILENCE) IoFinish; MicData [x07; x08]]
        DemoMore.in_flight = Some DemoMore.woken_early
  ∧ isRecording DemoMore.woken_early = true
  ∧ vadPending DemoMore.woken_early !! 0 = Some ([x05; x06], 16000%Z)
  ∧ step (VadSettled 0 (Resolved VAD.SILENCE) IoFinish) DemoMore.woken_early
    = Some Demo.answered_late
  ∧ finalized (trace Demo.answered_late) = [[x03; x04; x05; x06]; []].
Proof. repeat split; vm_compute; reflexivity. Qed.

(** C8 fails as stated.  In the run [Demo.late_answer] the second answer
    SILENCE is delivered just after the next wake event, when nothing has
    been buffered yet: [stopUserSpeechRecording] does not fail, it hands an
    empty audio buffer to [saveAudioToFile] and the transcription of the
    file is started. *)
Lemma empty_segment_is_finalized :
  run Demo.late_answer Demo.fresh = Some Demo.answered_late
  ∧ finalized (trace Demo.answered_late) = [[x03; x04; x05; x06]; []]
  ∧ isRecording Demo.answered_late = false.
Proof. repeat split; vm_compute; reflexivity. Qed.

(** ** More about the frames and their samples *)

Section Samples.

Context (porcupine : Porcupine).
Abbreviation frame_octets := (frameLength porcupine * 2).

Lemma readUInt8_range (x : byte) : (0 ≤ readUInt8 x < 256)%Z.
Proof.
  unfold readUInt8. pose proof (Byte.to_N_bounded x). lia.
Qed.

Lemma readUInt8_inj (x y : byte) : readUInt8 x = readUInt8 y → x = y.
Proof.
  unfold readUInt8. intros Heq. apply (inj Z.of_N) in Heq.
  assert (Some x = Some y) as [= ->]; [|done].
  by rewrite <- !Byte.of_to_N, Heq.
Qed.

Lemma testbit_15 (val : Z) :
  (0 ≤ val < 65536)%Z → Z.testbit val 15 = bool_decide (32768 ≤ val)%Z.
Proof.
  intros Hval. destruct (Z.testbit val 15) eqn:Hbit.
  - apply Z.testbit_true in Hbit; [|lia].
    change (2 ^ 15)%Z with 32768%Z in Hbit.
    symmetry. apply bool_decide_eq_true.
    destruct (decide (32768 ≤ val)%Z) as [|Hlt]; [done|].
    rewrite Z.div_small in Hbit by lia. done.
  - apply Z.testbit_false in Hbit; [|lia].
    change (2 ^ 15)%Z with 32768%Z in Hbit.
    symmetry. apply bool_decide_eq_false. intros Hge.
    assert (val `div` 32768 = 1)%Z as Hdiv.
    { symmetry. apply (Z.div_unique val 32768 1 (val - 32768)); lia. }
    rewrite Hdiv in Hbit. done.
Qed.

(** What [readInt16LE] returns determines the two octets it has read, and
    fits in sixteen bits. *)
Lemma readInt16LE_octets (buf : Buffer) (offset : nat) (v : Z) :
  readInt16LE buf offset = Some v →
  (-32768 ≤ v < 32768)%Z
  ∧ ∃ lo hi,
      buf !! offset = Some lo ∧ buf !! (offset + 1) = Some hi
      ∧ (readUInt8 lo + readUInt8 hi * 256
         = if bool_decide (v < 0)%Z then v + 65536 else v)%Z.
Proof.
  unfold readInt16LE. intros Hread.
  destruct (buf !! offset) as [lo|]; [|done].
  destruct (buf !! (offset + 1)) as [hi|]; [|done].
  change (Some (if Z.testbit (readUInt8 lo + readUInt8 hi * 256) 15
                then (readUInt8 lo + readUInt8 hi * 256 - 65536)%Z
                else (readUInt8 lo + readUInt8 hi * 256)%Z) = Some v)
    in Hread.
  pose proof (readUInt8_range lo). pose proof (readUInt8_range hi).
  rewrite testbit_15 in Hread by lia. injection Hread as <-.
  case_bool_decide; (split; [lia|]); exists lo, hi;
    repeat split; case_bool_decide; lia.
Qed.

Lemma readInt16LE_inj (buf1 buf2 : Buffer) (offset : nat) (v : Z) :
  readInt16LE buf1 offset = Some v →
  readInt16LE buf2 offset = Some v →
  buf1 !! offset = buf2 !! offset
  ∧ buf1 !! (offset + 1) = buf2 !! (offset + 1).
Proof.
  intros (_ & lo1 & hi1 & -> & -> & H1)%readInt16LE_octets
         (_ & lo2 & hi2 & -> & -> & H2)%readInt16LE_octets.
  pose proof (readUInt8_range lo1). pose proof (readUInt8_range hi1).
  pose proof (readUInt8_range lo2). pose proof (readUInt8_range hi2).
  assert (readUInt8 lo1 = readUInt8 lo2) as ->%readUInt8_inj by lia.
  assert (readUInt8 hi1 = readUInt8 hi2) as ->%readUInt8_inj by lia.
  done.
Qed.

Lemma to_pcm_lookup (frame : Buffer) (pcm : list Z) (i : nat) :
  to_pcm porcupine frame = Some pcm →
  i < frameLength porcupine →
  ∃ v, pcm !! i = Some v ∧ readInt16LE frame (i * 2) = Some v.
Proof.
  unfold to_pcm. intros Hpcm%mapM_Some Hi.
  destruct (Forall2_lookup_l _ _ _ i i Hpcm) as (v & Hv & Hread).
  { by apply lookup_seq_lt. }
  by exists v.
Qed.

(** X1.  The samples read from a frame: as many as the frame length, each
    of them a sixteen-bit integer, so that storing them in the [Int16Array]
    changes none of them. *)
Theorem samples_are_int16 (frame : Buffer) (pcm : list Z) :
  to_pcm porcupine frame = Some pcm →
  length pcm = frameLength porcupine
  ∧ Forall (λ v, (-32768 ≤ v < 32768)%Z) pcm.
Proof.
  intros Hpcm. assert (length pcm = frameLength porcupine) as Hlen.
  { unfold to_pcm in Hpcm. apply length_mapM in Hpcm.
    by rewrite length_seq in Hpcm. }
  split; [done|]. apply Forall_lookup. intros i v Hv.
  assert (i < frameLength porcupine) as Hi.
  { rewrite <- Hlen. by eapply lookup_lt_Some. }
  destruct (to_pcm_lookup _ _ _ Hpcm Hi) as (v' & Hv' & Hread).
  assert (v' = v) as -> by congruence.
  by apply readInt16LE_octets in Hread as [Hrange _].
Qed.

(** X2.  The engine is given all of the frame: two frames of
    [frameLength * 2] octets from which the same samples are read are the
    same frame. *)
Theorem samples_determine_frame (frame1 frame2 : Buffer) :
  length frame1 = frame_octets →
  length frame2 = frame_octets →
  to_pcm porcupine frame1 = to_pcm porcupine frame2 →
  frame1 = frame2.
Proof.
  intros Hlen1 Hlen2 Heq.
  destruct (to_pcm_Some porcupine frame1 Hlen1) as (pcm & Hpcm1 & _).
  assert (to_pcm porcupine frame2 = Some pcm) as Hpcm2 by congruence.
  apply list_eq. intros j.
  destruct (decide (j < frame_octets)) as [Hj|Hj].
  - assert (j `div` 2 < frameLength porcupine) as Hi
      by (apply Nat.Div0.div_lt_upper_bound; lia).
    destruct (to_pcm_lookup _ _ _ Hpcm1 Hi) as (v & Hv & Hread1).
    destruct (to_pcm_lookup _ _ _ Hpcm2 Hi) as (v' & Hv' & Hread2).
    assert (v' = v) as -> by congruence.
    destruct (readInt16LE_inj _ _ _ _ Hread1 Hread2) as [Hlo Hhi].
    pose proof (Nat.div_mod_eq j 2) as Hdm.
    pose proof (Nat.mod_upper_bound j 2 ltac:(lia)) as Hm.
    destruct (decide (j `mod` 2 = 0)) as [Hz|Hnz].
    + replace j with (j `div` 2 * 2) by lia. done.
    + replace j with (j `div` 2 * 2 + 1) by lia. done.
  - rewrite !lookup_ge_None_2 by lia. done.
Qed.

End Samples.

(** ** More about the loop *)

Section Runs.

Context (porcupine : Porcupine).
Implicit Types (st : State porcupine) (t outs : list output).

Lemma replay_app (pcms1 pcms2 : list (list Z)) (e e1 e2 : engine porcupine)
    (ks1 ks2 : list Z) :
  replay pcms1 e = (ks1, e1) →
  replay pcms2 e1 = (ks2, e2) →
  replay (pcms1 ++ pcms2) e = (ks1 ++ ks2, e2).
Proof.
  revert e ks1. induction pcms1 as [|pcm pcms1 IH]; intros e ks1 H1 H2.
  - by injection H1 as <- <-.
  - simpl in *. destruct (process porcupine pcm e) as [k e'].
    destruct (replay pcms1 e') as [ks e''] eqn:Hrest.
    injection H1 as <- <-. by rewrite (IH _ _ Hrest H2).
Qed.

Lemma scanned_pcm_app t1 t2 :
  scanned_pcm (t1 ++ t2) = scanned_pcm t1 ++ scanned_pcm t2.
Proof. apply omap_app. Qed.

Lemma scanned_keywords_app t1 t2 :
  scanned_keywords (t1 ++ t2) = scanned_keywords t1 ++ scanned_keywords t2.
Proof. apply omap_app. Qed.

Lemma reports_app ks1 ks2 : reports (ks1 ++ ks2) = reports ks1 + reports ks2.
Proof. unfold reports. by rewrite filter_app, length_app. Qed.

Lemma silence_events_app t1 t2 :
  silence_events (t1 ++ t2) = silence_events t1 + silence_events t2.
Proof. unfold silence_events. by rewrite filter_app, length_app. Qed.

Lemma transcriptions_app t1 t2 :
  transcriptions (t1 ++ t2) = transcriptions t1 + transcriptions t2.
Proof. unfold transcriptions. by rewrite filter_app, length_app. Qed.

(** What a run of the scanning loop adds to the trace: calls of the engine,
    each on the state the previous one left, and a wake event after the
    call that reports the keyword, if there is one. *)
Lemma scan_loop_scans fuel st st' :
  scan_loop fuel st = Some st' →
  ∃ outs,
    trace st' = trace st ++ outs
    ∧ replay (scanned_pcm outs) (engineState st)
      = (scanned_keywords outs, engineState st')
    ∧ wake_events outs = reports (scanned_keywords outs)
    ∧ silence_events outs = 0
    ∧ finalized outs = []
    ∧ transcriptions outs = 0.
Proof.
  revert st. induction fuel as [|fuel IH]; intros st Hrun; [done|].
  simpl in Hrun. case_bool_decide as Hframe.
  - destruct (to_pcm porcupine (take (frameLength porcupine * 2)
                                     (audioBuffer st)))
      as [pcm|] eqn:Hpcm; [|done].
    simpl in Hrun.
    destruct (process porcupine pcm (engineState st)) as [kw e] eqn:Hproc.
    case_bool_decide as Hkw.
    + injection Hrun as <-. eexists [Scanned _ pcm kw; WakeEvent].
      simpl. rewrite Hproc, <- app_assoc. repeat split.
      unfold wake_events, reports. simpl. by rewrite filter_cons_True.
    + apply IH in Hrun as (outs & Htr & Hre & Hw & Hs & Hf & Ht).
      simpl in Htr, Hre. eexists (Scanned _ pcm kw :: outs).
      rewrite Htr, <- app_assoc. simpl. rewrite Hproc, Hre.
      repeat split; try done.
      unfold wake_events, reports in *. simpl.
      by rewrite !filter_cons_False by (done || (simpl; tauto)).
  - injection Hrun as <-. exists []. simpl. by rewrite app_nil_r.
Qed.

(** What one turn of the event loop adds to the trace. *)
Lemma step_adds ev st st' :
  step ev st = Some st' →
  ∃ outs,
    trace st' = trace st ++ outs
    ∧ replay (scanned_pcm outs) (engineState st)
      = (scanned_keywords outs, engineState st')
    ∧ wake_events outs = reports (scanned_keywords outs)
    ∧ silence_events outs = silence_answers [ev]
    ∧ length (finalized outs) = silence_answers [ev]
    ∧ transcriptions outs = silence_answers [ev].
Proof.
  intros [_ Hstep]%step_handle. destruct ev as [data|k o io]; simpl in Hstep.
  - destruct (isRecording st) eqn:Hrec.
    + rewrite on_data_recording in Hstep by done.
      injection Hstep as <-. exists [].
      destruct (Nat.even (length data)); simpl; by rewrite app_nil_r.
    + rewrite on_data_listening in Hstep by done.
      apply scan_loop_scans in Hstep as (outs & Htr & Hre & Hw & Hs & Hf & Ht).
      exists outs. simpl in *. rewrite Hs, Hf, Ht. done.
  - destruct (vadPending st !! k); simpl in Hstep; [|done].
    injection Hstep as <-.
    destruct o as [[]|], io;
      first [ (exists []; simpl; by rewrite app_nil_r)
            | (eexists [SilenceEvent; Finalized _; Transcribed]; simpl;
               by rewrite <- !app_assoc) ].
Qed.

Lemma silence_answers_cons ev evs :
  silence_answers (ev :: evs) = silence_answers [ev] + silence_answers evs.
Proof.
  unfold silence_answers. change (ev :: evs) with ([ev] ++ evs).
  by rewrite filter_app, length_app.
Qed.

(** What a run adds to the trace. *)
Lemma run_adds evs st st' :
  run evs st = Some st' →
  ∃ outs,
    trace st' = trace st ++ outs
    ∧ replay (scanned_pcm outs) (engineState st)
      = (scanned_keywords outs, engineState st')
    ∧ wake_events outs = reports (scanned_keywords outs)
    ∧ silence_events outs = silence_answers evs
    ∧ length (finalized outs) = silence_answers evs
    ∧ transcriptions outs = silence_answers evs.
Proof.
  revert st. induction evs as [|ev evs IH]; intros st Hrun.
  - injection Hrun as <-. exists []. simpl. by rewrite app_nil_r.
  - simpl in Hrun. destruct (step ev st) as [st1|] eqn:Hstep; [|done].
    simpl in Hrun.
    apply step_adds in Hstep as (o1 & Htr1 & Hre1 & Hw1 & Hs1 & Hf1 & Ht1).
    apply IH in Hrun as (o2 & Htr2 & Hre2 & Hw2 & Hs2 & Hf2 & Ht2).
    exists (o1 ++ o2).
    rewrite Htr2, Htr1, <- app_assoc, scanned_pcm_app, scanned_keywords_app.
    rewrite wake_events_app, reports_app, silence_events_app.
    rewrite finalized_app, length_app, transcriptions_app.
    rewrite (silence_answers_cons ev evs).
    rewrite (replay_app _ _ _ _ _ _ _ Hre1 Hre2).
    repeat split; congruence || lia.
Qed.

Lemma no_keyword_keywords outs :
  Forall no_keyword outs → Forall (λ k, (k < 0)%Z) (scanned_keywords outs).
Proof.
  induction 1 as [|o outs Ho _ IH]; [constructor|].
  destruct o; try done. by constructor.
Qed.

Lemma silence_answers_chunks (chunks : list Buffer) :
  silence_answers (MicData <$> chunks) = 0.
Proof. by induction chunks. Qed.

(** X3.  With a positive frame length the [while] loop always ends: a
    chunk that arrives in LISTENING is worked off by the handler, whatever
    the chunk, the octets left over before and the engine. *)
Theorem listening_chunk_is_always_handled data st :
  0 < frameLength porcupine →
  isRecording st = false →
  exited st = false →
  ∃ st', step (MicData data) st = Some st'.
Proof.
  intros Hfl Hrec Halive.
  destruct (on_data_returns porcupine Hfl data st) as [st' Hst'].
  exists st'. by apply step_handle.
Qed.

(** X4.  The positive frame length is needed: were [porcupine.frameLength]
    0, the condition of the [while] loop would hold for ever, and with an
    engine that never reports the keyword the loop would not end, however
    many iterations it is given. *)
Theorem scan_never_ends_on_empty_frames (fuel : nat) st :
  frameLength porcupine = 0 →
  (∀ pcm e, ((process porcupine pcm e).1 < 0)%Z) →
  scan_loop fuel st = None.
Proof.
  intros Hfl Hdeaf. revert st. induction fuel as [|fuel IH]; intros st; [done|].
  simpl. rewrite bool_decide_eq_true_2 by lia.
  unfold to_pcm. rewrite Hfl. simpl.
  specialize (Hdeaf [] (engineState st)).
  destruct (process porcupine [] (engineState st)) as [kw e].
  simpl in Hdeaf. rewrite bool_decide_eq_false_2 by lia. apply IH.
Qed.

(** X5.  In LISTENING no octet is lost, repeated or moved, whether the
    keyword is found or not: the frames scanned while a chunk is handled,
    all of them whole, followed by what is then left in [audioBuffer], are
    what was left before followed by the chunk.  If the session is still in
    LISTENING, less than a frame is left. *)
Theorem listening_chunk_is_conserved data st st1 :
  isRecording st = false →
  on_data data st = Some st1 →
  ∃ frames,
    scanned_frames (trace st1) = scanned_frames (trace st) ++ frames
    ∧ Forall (λ frame, length frame = frameLength porcupine * 2) frames
    ∧ concat frames ++ audioBuffer st1 = audioBuffer st ++ data
    ∧ if isRecording st1 then True
      else length (audioBuffer st1) < frameLength porcupine * 2.
Proof.
  intros Hrec Hst1.
  destruct (on_data_listening_inv _ _ _ _ Hrec Hst1)
    as (outs & Hok & Hcat & _ & Hcase).
  destruct (scan_ok_frames _ _ Hok) as (Hframes & _).
  exists (scanned_frames outs).
  destruct Hcase as [(_ & _ & _ & _ & _ & _ & _ & -> & _ & ->)
                    |(_ & -> & _ & -> & Hres)];
    rewrite !scanned_frames_app; simpl; rewrite ?app_nil_r; done.
Qed.

(** X6.  While a chunk is handled in LISTENING the frames are scanned up to
    the first one on which the engine reports the keyword, and no further:
    all answers but the last are negative, and the session is in RECORDING
    afterwards exactly when the last answer is not. *)
Theorem scan_stops_at_first_report data st st1 :
  isRecording st = false →
  on_data data st = Some st1 →
  ∃ quiet,
    Forall (λ k, (k < 0)%Z) quiet
    ∧ if isRecording st1
      then ∃ k, (0 ≤ k)%Z
                ∧ scanned_keywords (trace st1)
                  = scanned_keywords (trace st) ++ quiet ++ [k]
      else scanned_keywords (trace st1) = scanned_keywords (trace st) ++ quiet.
Proof.
  intros Hrec Hst1.
  destruct (on_data_listening_inv _ _ _ _ Hrec Hst1)
    as (outs & _ & _ & _ & Hcase).
  destruct Hcase as [(quiet & f & p & k & -> & Hquiet & Hk & -> & _ & ->)
                    |(Hquiet & -> & _ & -> & _)].
  - exists (scanned_keywords quiet). split; [by apply no_keyword_keywords|].
    exists k. split; [done|].
    rewrite !scanned_keywords_app. simpl. by rewrite app_nil_r.
  - exists (scanned_keywords outs). split; [by apply no_keyword_keywords|].
    by rewrite scanned_keywords_app.
Qed.

(** X7.  Over a whole session the engine is called on the samples of the
    frames scanned, in their order, each call on the state the call before
    has left: calling [porcupine.process] on the recorded sample arrays one
    after the other, from the engine's first state, gives the recorded
    answers and the state the engine is in. *)
Theorem engine_sees_frames_in_order evs (e0 : engine porcupine) st :
  run evs (initial porcupine e0) = Some st →
  replay (scanned_pcm (trace st)) e0
  = (scanned_keywords (trace st), engineState st).
Proof.
  intros (outs & Htr & Hre & _)%run_adds. simpl in Htr, Hre. by subst outs.
Qed.

(** X8.  Over a whole session there are as many wake events as answers of
    the engine that report the keyword. *)
Theorem wake_events_are_reports evs (e0 : engine porcupine) st :
  run evs (initial porcupine e0) = Some st →
  wake_events (trace st) = reports (scanned_keywords (trace st)).
Proof.
  intros (outs & Htr & _ & Hw & _)%run_adds. simpl in Htr. by subst outs.
Qed.

(** X11.  Over a whole session every answer SILENCE that is delivered, in
    whatever mode, calls [stopUserSpeechRecording] and hands one buffer to
    [saveAudioToFile], and nothing else does; [processUserSpeech] is called
    once for each of these file writes. *)
Theorem every_silence_answer_finalizes evs (e0 : engine porcupine) st :
  run evs (initial porcupine e0) = Some st →
  silence_events (trace st) = silence_answers evs
  ∧ length (finalized (trace st)) = silence_answers evs
  ∧ transcriptions (trace st) = silence_answers evs.
Proof.
  intros (outs & Htr & _ & _ & Hs & Hf & Ht)%run_adds.
  simpl in Htr. by subst outs.
Qed.

Lemma quiet_run evs st st' :
  isRecording st = false →
  vadPending st = [] →
  run evs st = Some st' →
  wake_events (trace st') = wake_events (trace st) →
  isRecording st' = false
  ∧ vadPending st' = []
  ∧ speechBuffer st' = speechBuffer st
  ∧ evs = MicData <$> chunks_of evs.
Proof.
  revert st. induction evs as [|ev evs IH]; intros st Hrec Hpend Hrun Hw.
  - by injection Hrun as <-.
  - simpl in Hrun. destruct (step ev st) as [st1|] eqn:Hstep; [|done].
    simpl in Hrun.
    destruct (run_adds _ _ _ Hrun) as (o2 & Htr2 & _).
    assert (wake_events (trace st1) ≤ wake_events (trace st')) as Hmono
      by (rewrite Htr2, wake_events_app; lia).
    apply step_handle in Hstep as [_ Hstep].
    destruct ev as [data|k o io]; simpl in Hstep;
      [|by rewrite Hpend in Hstep].
    destruct (on_data_listening_inv _ _ _ _ Hrec Hstep)
      as (outs & _ & _ & Hpend1 & Hcase).
    destruct Hcase as [(quiet & f & p & k & -> & Hquiet & _ & _ & _ & Htr1)
                      |(Hquiet & Hrec1 & Hsb1 & Htr1 & _)].
    + rewrite Htr1, !wake_events_app in Hmono. simpl in Hmono.
      unfold wake_events at 4 in Hmono. simpl in Hmono. lia.
    + destruct (no_keyword_quiet _ Hquiet) as [Hw1 _].
      assert (wake_events (trace st1) = wake_events (trace st)) as Hsame
        by (rewrite Htr1, wake_events_app; lia).
      destruct (IH st1) as (Hrec' & Hpend' & Hsb' & Hevs);
        [done|congruence|done|congruence|].
      repeat split; [done|done|congruence|].
      change (MicData data :: evs
              = MicData data :: (MicData <$> chunks_of evs)).
      by f_equal.
Qed.

(** X9.  Before the first wake event nothing is recorded, classified or
    finalized: in a session without wake event every event was a chunk from
    the microphone, the session is in LISTENING, the speech buffer is empty,
    no classification is in flight and nothing has been handed to
    [saveAudioToFile]. *)
Theorem nothing_before_first_wake evs (e0 : engine porcupine) st :
  run evs (initial porcupine e0) = Some st →
  wake_events (trace st) = 0 →
  evs = MicData <$> chunks_of evs
  ∧ isRecording st = false
  ∧ speechBuffer st = []
  ∧ vadPending st = []
  ∧ finalized (trace st) = []
  ∧ silence_events (trace st) = 0.
Proof.
  intros Hrun Hw.
  destruct (quiet_run evs (initial porcupine e0) st)
    as (Hrec & Hpend & Hsb & Hevs); [done..|].
  destruct (run_adds _ _ _ Hrun) as (outs & Htr & _ & _ & Hs & Hf & _).
  simpl in Htr. subst outs.
  rewrite Hevs, silence_answers_chunks in Hs, Hf.
  repeat split; try done. by apply length_zero_iff_nil.
Qed.

(** X10.  A second answer SILENCE finalizes the same audio again.  When two
    answers SILENCE are delivered one after the other, as for two chunks
    whose classifications were both in flight, the first ends the recording
    and the second, delivered in LISTENING, runs [stopUserSpeechRecording]
    once more on the speech buffer that was not cleared: the same audio is
    handed to [saveAudioToFile] twice. *)
Theorem second_silence_finalizes_again k1 io1 k2 io2 st st' :
  run [VadSettled k1 (Resolved VAD.SILENCE) io1;
       VadSettled k2 (Resolved VAD.SILENCE) io2] st = Some st' →
  finalized (trace st')
  = finalized (trace st)
    ++ [concat (speechBuffer st); concat (speechBuffer st)]
  ∧ isRecording st' = false
  ∧ speechBuffer st' = speechBuffer st.
Proof.
  intros Hrun. cbn [run] in Hrun.
  destruct (step (VadSettled k1 (Resolved VAD.SILENCE) io1) st)
    as [st1|] eqn:H1; [|done].
  cbn [mbind option_bind] in Hrun.
  destruct (step (VadSettled k2 (Resolved VAD.SILENCE) io2) st1)
    as [st2|] eqn:H2; [|done].
  cbn [mbind option_bind] in Hrun. injection Hrun as <-.
  apply step_silence in H1 as ->. apply step_silence in H2 as ->.
  rewrite !stop_finalized.
  assert (speechBuffer (stopUserSpeechRecording io1
            (set_vadPending (delete k1 (vadPending st)) st))
          = speechBuffer st) as Hsb by by destruct io1.
  split; [|by destruct io1, io2].
  simpl. rewrite Hsb, stop_finalized. simpl. by rewrite <- app_assoc.
Qed.


End Runs.

(** ** The reply *)

Section ReplyFacts.

Context {num : Type} (mul : num → num → num) (lit : Z → num)
        (show : num → string).
Implicit Types (part : @Part num) (parts : list (@Part num)).

Lemma append_nil_r (s : string) : s +:+ "" = s.
Proof.
  induction s as [|a s IH]; [done|].
  change (String a (s +:+ "") = String a s). by rewrite IH.
Qed.

Lemma append_assoc (s1 s2 s3 : string) :
  (s1 +:+ s2) +:+ s3 = s1 +:+ (s2 +:+ s3).
Proof.
  induction s1 as [|a s1 IH]; [done|].
  change (String a ((s1 +:+ s2) +:+ s3) = String a (s1 +:+ (s2 +:+ s3))).
  by rewrite IH.
Qed.

(** The loop over the parts keeps the texts and the function calls apart,
    each in the order of the parts. *)
Lemma foldl_collect parts (acc : string * list (@FunctionCall num)) :
  foldl collect acc parts
  = (acc.1 +:+ reply_text parts, acc.2 ++ omap functionCall parts).
Proof.
  revert acc. induction parts as [|part parts IH]; intros [t calls].
  - simpl. by rewrite append_nil_r, app_nil_r.
  - cbn [foldl]. rewrite IH. unfold collect.
    change (omap functionCall (part :: parts))
      with (match functionCall part with
            | Some call => call :: omap functionCall parts
            | None => omap functionCall parts
            end).
    cbn [reply_text].
    destruct (functionCall part) as [[n a]|]; cbn [fst snd name args].
    + by rewrite <- app_assoc.
    + by rewrite append_assoc.
Qed.

Lemma join_cons {A} (l : list A) (ls : list (list A)) :
  mjoin (l :: ls) = l ++ mjoin ls.
Proof. done. Qed.

(** What the function calls do: a timer for each call named [setTimer]. *)
Lemma timers_of_calls parts :
  let acts :=
    mjoin ((λ func, if bool_decide (name func = "setTimer")
                    then setTimer mul lit show (args func) else [])
           <$> omap functionCall parts) in
  said acts
  = (λ m, "Setting a timer for " +:+ show m +:+ " minutes.")
    <$> timer_minutes parts
  ∧ timeouts acts
    = (λ m, (m, mul (mul m (lit 60)) (lit 1000))) <$> timer_minutes parts
  ∧ sent acts = [].
Proof.
  induction parts as [|part parts (IHs & IHt & IHm)]; [done|].
  change (omap functionCall (part :: parts))
    with (match functionCall part with
          | Some call => call :: omap functionCall parts
          | None => omap functionCall parts
          end).
  cbn [timer_minutes].
  destruct (functionCall part) as [call|]; [|done].
  rewrite fmap_cons, join_cons. cbn zeta in *.
  unfold said, timeouts, sent in *. rewrite !omap_app, IHs, IHt, IHm.
  by case_bool_decide.
Qed.

Lemma handleGeminiResponse_first c cs :
  handleGeminiResponse mul lit show
    {| response := {| candidates := c :: cs |} |}
  = Some ((if bool_decide (reply_text (parts (content c)) = "") then []
           else [ConsoleLog ("Mark: " +:+ reply_text (parts (content c)));
                 Say (reply_text (parts (content c)))])
          ++ mjoin ((λ func, if bool_decide (name func = "setTimer")
                             then setTimer mul lit show (args func) else [])
                    <$> omap functionCall (parts (content c)))).
Proof.
  unfold handleGeminiResponse. cbn [response candidates head mbind option_bind].
  by rewrite foldl_collect.
Qed.

(** X12.  What is spoken for a reply.  Only the first candidate counts.
    The texts of its parts that are not function calls are put end to end,
    in their order, and spoken as one sentence, unless there is no text at
    all; after that, and in the order of the parts, a timer is announced for
    each function call named [setTimer], and for no other call. *)
Theorem reply_is_spoken_then_timers c cs :
  said <$> handleGeminiResponse mul lit show
             {| response := {| candidates := c :: cs |} |}
  = Some ((if bool_decide (reply_text (parts (content c)) = "") then []
           else [reply_text (parts (content c))])
          ++ ((λ m, "Setting a timer for " +:+ show m +:+ " minutes.")
              <$> timer_minutes (parts (content c)))).
Proof.
  rewrite handleGeminiResponse_first. cbn [fmap option_fmap option_map].
  f_equal. unfold said at 1. rewrite omap_app.
  destruct (timers_of_calls (parts (content c))) as (Hs & _).
  unfold said in Hs. rewrite Hs. by case_bool_decide.
Qed.

(** X13.  The timers started for a reply: one for each function call named
    [setTimer] of the first candidate, in the order of the parts, with the
    delay [minutes * 60 * 1000]; calls by another name start nothing. *)
Theorem timers_are_the_setTimer_calls c cs :
  timeouts <$> handleGeminiResponse mul lit show
                 {| response := {| candidates := c :: cs |} |}
  = Some ((λ m, (m, mul (mul m (lit 60)) (lit 1000)))
          <$> timer_minutes (parts (content c))).
Proof.
  rewrite handleGeminiResponse_first. cbn [fmap option_fmap option_map].
  f_equal. unfold timeouts at 1. rewrite omap_app.
  destruct (timers_of_calls (parts (content c))) as (_ & Ht & _).
  unfold timeouts in Ht. rewrite Ht. by case_bool_decide.
Qed.

(** X14.  The assistant speaks, or starts a timer, only when everything
    before has worked: the transcription has arrived, the chat model has
    answered, and its answer has a candidate.  In every other case an error
    is logged and that is all. *)
Theorem speech_needs_both_answers t g filename :
  said (processUserSpeech mul lit show t g filename) ≠ []
  ∨ timeouts (processUserSpeech mul lit show t g filename) ≠ [] →
  ∃ transcription_text c cs,
    t = GroqResolved transcription_text
    ∧ g = GeminiResolved {| response := {| candidates := c :: cs |} |}.
Proof.
  intros Hdone.
  destruct t as [transcription_text|]; [|by destruct Hdone].
  destruct g as [[[[|c cs]]]|]; [by destruct Hdone| |by destruct Hdone].
  by exists transcription_text, c, cs.
Qed.

(** X15.  What is sent to the chat model is the transcription, once, and
    only if there is one: handling the reply never sends anything. *)
Theorem transcription_is_sent_once t g filename :
  sent (processUserSpeech mul lit show t g filename)
  = match t with
    | GroqResolved transcription_text => [transcription_text]
    | GroqRejected => []
    end.
Proof.
  destruct t as [transcription_text|]; [|done].
  destruct g as [[[[|c cs]]]|]; [done| |done].
  unfold processUserSpeech, processTranscription.
  rewrite handleGeminiResponse_first.
  destruct (timers_of_calls (parts (content c))) as (_ & _ & Hm).
  unfold sent in *. cbn [omap list_omap app]. rewrite omap_app, Hm.
  by case_bool_decide.
Qed.

End ReplyFacts.

(** ** More runs on concrete engines *)

Lemma samples_are_int16_witness :
  to_pcm (deaf 2) [xff; xff; x00; x80] = Some [(-1)%Z; (-32768)%Z]
  ∧ length [(-1)%Z; (-32768)%Z] = frameLength (deaf 2)
  ∧ Forall (λ v, (-32768 ≤ v < 32768)%Z) [(-1)%Z; (-32768)%Z].
Proof.
  split; [reflexivity|].
  apply (samples_are_int16 (deaf 2) [xff; xff; x00; x80]). reflexivity.
Defined.

Lemma samples_determine_frame_witness :
  length [xff; x7f] = frameLength (deaf 1) * 2
  ∧ to_pcm (deaf 1) [xff; x7f] = to_pcm (deaf 1) (take 2 [xff; x7f; x00])
  ∧ [xff; x7f] = take 2 [xff; x7f; x00].
Proof.
  split; [reflexivity|]. split; [reflexivity|].
  apply (samples_determine_frame (deaf 1)); reflexivity.
Defined.

Lemma listening_chunk_is_always_handled_witness :
  0 < frameLength (eager 1)
  ∧ isRecording Demo.stopped = false
  ∧ exited Demo.stopped = false
  ∧ ∃ st', step (MicData [x09; x0a; x0b]) Demo.stopped = Some st'.
Proof.
  split; [simpl; lia|]. do 2 (split; [reflexivity|]).
  apply (listening_chunk_is_always_handled (eager 1));
    [simpl; lia|reflexivity|reflexivity].
Defined.

Lemma scan_never_ends_on_empty_frames_witness :
  frameLength (deaf 0) = 0
  ∧ (∀ pcm e, ((process (deaf 0) pcm e).1 < 0)%Z)
  ∧ scan_loop 1000 (initial (deaf 0) tt) = None.
Proof.
  assert (∀ pcm e, ((process (deaf 0) pcm e).1 < 0)%Z) as Hdeaf
    by (intros pcm e; simpl; lia).
  split; [reflexivity|]. split; [exact Hdeaf|].
  apply (scan_never_ends_on_empty_frames (deaf 0)); [reflexivity|exact Hdeaf].
Defined.

Lemma listening_chunk_is_conserved_witness :
  isRecording Demo.fresh = false
  ∧ on_data Demo.wake_chunk Demo.fresh = Some Demo.woken
  ∧ ∃ frames,
      scanned_frames (trace Demo.woken)
      = scanned_frames (trace Demo.fresh) ++ frames
      ∧ Forall (λ frame, length frame = frameLength (eager 1) * 2) frames
      ∧ concat frames ++ audioBuffer Demo.woken
        = audioBuffer Demo.fresh ++ Demo.wake_chunk
      ∧ if isRecording Demo.woken then True
        else length (audioBuffer Demo.woken) < frameLength (eager 1) * 2.
Proof.
  do 2 (split; [reflexivity|]).
  apply (listening_chunk_is_conserved (eager 1) Demo.wake_chunk Demo.fresh
           Demo.woken); reflexivity.
Defined.

Lemma scan_stops_at_first_report_witness :
  isRecording Demo.fresh = false
  ∧ on_data Demo.wake_chunk Demo.fresh = Some Demo.woken
  ∧ ∃ quiet,
      Forall (λ k, (k < 0)%Z) quiet
      ∧ if isRecording Demo.woken
        then ∃ k, (0 ≤ k)%Z
                  ∧ scanned_keywords (trace Demo.woken)
                    = scanned_keywords (trace Demo.fresh) ++ quiet ++ [k]
        else scanned_keywords (trace Demo.woken)
             = scanned_keywords (trace Demo.fresh) ++ quiet.
Proof.
  do 2 (split; [reflexivity|]).
  apply (scan_stops_at_first_report (eager 1) Demo.wake_chunk Demo.fresh
           Demo.woken); reflexivity.
Defined.

Lemma engine_sees_frames_in_order_witness :
  run (MicData <$> DemoMore.unheard_chunks) (initial (deaf 1) tt)
    = Some DemoMore.unheard
  ∧ @replay (deaf 1) (scanned_pcm (trace DemoMore.unheard)) tt
    = (scanned_keywords (trace DemoMore.unheard),
       engineState DemoMore.unheard).
Proof.
  split; [reflexivity|].
  apply (engine_sees_frames_in_order (deaf 1)
           (MicData <$> DemoMore.unheard_chunks) tt DemoMore.unheard).
  reflexivity.
Defined.

Lemma wake_events_are_reports_witness :
  run (MicData Demo.wake_chunk :: Demo.recording_phase
         ++ [Demo.last_answer; MicData [x09; x0a]])
      (initial (eager 1) tt) = Some Demo.woken_again
  ∧ wake_events (trace Demo.woken_again)
    = reports (scanned_keywords (trace Demo.woken_again)).
Proof.
  split; [vm_compute; reflexivity|].
  apply (wake_events_are_reports (eager 1)
           (MicData Demo.wake_chunk :: Demo.recording_phase
              ++ [Demo.last_answer; MicData [x09; x0a]])
           tt Demo.woken_again).
  vm_compute; reflexivity.
Defined.

Lemma nothing_before_first_wake_witness :
  run (MicData <$> DemoMore.unheard_chunks) (initial (deaf 1) tt)
    = Some DemoMore.unheard
  ∧ wake_events (trace DemoMore.unheard) = 0
  ∧ (MicData <$> DemoMore.unheard_chunks)
    = MicData <$> chunks_of (MicData <$> DemoMore.unheard_chunks)
  ∧ isRecording DemoMore.unheard = false
  ∧ speechBuffer DemoMore.unheard = []
  ∧ vadPending DemoMore.unheard = []
  ∧ finalized (trace DemoMore.unheard) = []
  ∧ silence_events (trace DemoMore.unheard) = 0.
Proof.
  do 2 (split; [reflexivity|]).
  apply (nothing_before_first_wake (deaf 1)
           (MicData <$> DemoMore.unheard_chunks) tt DemoMore.unheard);
    reflexivity.
Defined.

Lemma second_silence_finalizes_again_witness :
  run [VadSettled 0 (Resolved VAD.SILENCE) IoFinish;
       VadSettled 0 (Resolved VAD.SILENCE) IoError] Demo.two_chunks
    = Some DemoMore.stopped_twice
  ∧ finalized (trace DemoMore.stopped_twice)
    = finalized (trace Demo.two_chunks)
      ++ [concat (speechBuffer Demo.two_chunks);
          concat (speechBuffer Demo.two_chunks)]
  ∧ isRecording DemoMore.stopped_twice = false
  ∧ speechBuffer DemoMore.stopped_twice = speechBuffer Demo.two_chunks.
Proof.
  split; [reflexivity|].
  apply (second_silence_finalizes_again (eager 1) 0 IoFinish 0 IoError
           Demo.two_chunks DemoMore.stopped_twice).
  reflexivity.
Defined.

Lemma every_silence_answer_finalizes_witness :
  run (MicData Demo.wake_chunk :: Demo.recording_phase
         ++ [Demo.last_answer; MicData [x09; x0a]])
      (initial (eager 1) tt) = Some Demo.woken_again
  ∧ silence_events (trace Demo.woken_again)
    = silence_answers (MicData Demo.wake_chunk :: Demo.recording_phase
                         ++ [Demo.last_answer; MicData [x09; x0a]])
  ∧ length (finalized (trace Demo.woken_again))
    = silence_answers (MicData Demo.wake_chunk :: Demo.recording_phase
                         ++ [Demo.last_answer; MicData [x09; x0a]])
  ∧ transcriptions (trace Demo.woken_again)
    = silence_answers (MicData Demo.wake_chunk :: Demo.recording_phase
                         ++ [Demo.last_answer; MicData [x09; x0a]]).
Proof.
  split; [vm_compute; reflexivity|].
  apply (every_silence_answer_finalizes (eager 1)
           (MicData Demo.wake_chunk :: Demo.recording_phase
              ++ [Demo.last_answer; MicData [x09; x0a]])
           tt Demo.woken_again).
  vm_compute; reflexivity.
Defined.

(** The reply of [DemoMore]: the text and the missing text are spoken as one
    sentence, one timer of five minutes is started, the other call does
    nothing. *)
Lemma demo_reply :
  processUserSpeech Z.mul id pretty (GroqResolved "set a timer")
    (GeminiResolved DemoMore.reply) "user_speech.wav"
  = [CreateTranscription "user_speech.wav" "whisper-large-v3";
     ConsoleLog "Transcription: set a timer";
     StartChat "set a timer"; SendMessage "set a timer";
     ConsoleLog "Mark: On it. undefined"; Say "On it. undefined";
     ConsoleLog "Setting a timer for 5 minutes.";
     Say "Setting a timer for 5 minutes.";
     SetTimeout 5%Z 300000%Z].
Proof. vm_compute. reflexivity. Qed.

Lemma speech_needs_both_answers_witness :
  (said (processUserSpeech Z.mul id pretty (GroqResolved "set a timer")
           (GeminiResolved DemoMore.reply) "user_speech.wav") ≠ []
   ∨ timeouts (processUserSpeech Z.mul id pretty (GroqResolved "set a timer")
                 (GeminiResolved DemoMore.reply) "user_speech.wav") ≠ [])
  ∧ ∃ transcription_text c cs,
      GroqResolved "set a timer" = GroqResolved transcription_text
      ∧ GeminiResolved DemoMore.reply
        = GeminiResolved {| response := {| candidates := c :: cs |} |}.
Proof.
  assert (said (processUserSpeech Z.mul id pretty (GroqResolved "set a timer")
                  (GeminiResolved DemoMore.reply) "user_speech.wav") ≠ [])
    as Hsaid by (vm_compute; discriminate).
  split; [by left|].
  apply (speech_needs_both_answers Z.mul id pretty (GroqResolved "set a timer")
           (GeminiResolved DemoMore.reply) "user_speech.wav").
  by left.
Defined.


(** ** Frame integrity *)

Section FrameIntegrity.

Context (porcupine : Porcupine).
Implicit Types (st : State porcupine) (outs : list output).
Abbreviation whole := (λ frame : Buffer, length frame = frameLength porcupine * 2).

Lemma length_int16_samples (n : nat) (octets : Buffer) :
  length octets = n * 2 → length (int16_samples octets) = n.
Proof.
  revert octets. induction n as [|n IH]; intros [|lo [|hi octets]] Hlen;
    try done.
  simpl in *. f_equal. apply IH. lia.
Qed.

Lemma int16_samples_read (octets : Buffer) (i : nat) (v : Z) :
  int16_samples octets !! i = Some v → readInt16LE octets (i * 2) = Some v.
Proof.
  revert octets. induction i as [|i IH]; intros [|lo [|hi octets]] Hv;
    try done.
  - cbn [int16_samples lookup list_lookup] in Hv. injection Hv as <-.
    pose proof (readUInt8_range lo). pose proof (readUInt8_range hi).
    unfold readInt16LE.
    change ((lo :: hi :: octets) !! (0 * 2)) with (Some lo).
    change ((lo :: hi :: octets) !! (0 * 2 + 1)) with (Some hi).
    cbn [mbind option_bind]. cbv zeta. rewrite testbit_15 by lia.
    f_equal. repeat case_bool_decide; lia.
  - cbn [int16_samples lookup list_lookup] in Hv. apply IH in Hv.
    unfold readInt16LE in *.
    change ((lo :: hi :: octets) !! (S i * 2)) with (octets !! (i * 2)).
    change ((lo :: hi :: octets) !! (S i * 2 + 1))
      with (octets !! (i * 2 + 1)).
    done.
Qed.

(** The loop that fills the [Int16Array] reads the samples of the frame. *)
Lemma to_pcm_samples (frame : Buffer) :
  whole frame → to_pcm porcupine frame = Some (int16_samples frame).
Proof.
  intros Hlen. unfold to_pcm. apply mapM_Some.
  apply Forall2_same_length_lookup_2.
  - rewrite length_seq. symmetry. by apply length_int16_samples.
  - intros i j v [-> _]%lookup_seq Hv. by apply int16_samples_read.
Qed.

Lemma scan_ok_samples outs :
  Forall (scan_ok porcupine) outs →
  scanned_pcm outs = int16_samples <$> scanned_frames outs.
Proof.
  induction 1 as [|o outs Ho _ IH]; [done|].
  destruct o as [frame pcm k| | | |]; try done.
  destruct Ho as (Hlen & Hpcm & _). rewrite to_pcm_samples in Hpcm by done.
  injection Hpcm as <-. cbn. by f_equal.
Qed.

Lemma replay_prefix (P : Z → Prop) (pcms1 pcms2 : list (list Z))
    (e : engine porcupine) :
  Forall P (replay (pcms1 ++ pcms2) e).1 → Forall P (replay pcms1 e).1.
Proof.
  destruct (replay pcms1 e) as [ks1 e1] eqn:H1.
  destruct (replay pcms2 e1) as [ks2 e2] eqn:H2.
  rewrite (replay_app porcupine _ _ _ _ _ _ _ H1 H2). simpl.
  by intros [? _]%Forall_app.
Qed.

Lemma reshape_whole (n : nat) (frames : list Buffer) (rest : Buffer) :
  Forall (λ frame, length frame = n) frames →
  reshape (replicate (length frames) n) (concat frames ++ rest) = frames.
Proof.
  induction 1 as [|f frames Hf _ IH]; [done|].
  cbn [length replicate reshape concat]. rewrite <- app_assoc.
  rewrite take_app_length', drop_app_length' by done. by rewrite IH.
Qed.

Lemma reshape_replicate_add (n m1 m2 : nat) (octets : Buffer) :
  reshape (replicate (m1 + m2) n) octets
  = reshape (replicate m1 n) octets
    ++ reshape (replicate m2 n) (drop (m1 * n) octets).
Proof.
  revert octets. induction m1 as [|m1 IH]; intros octets; [done|].
  cbn [Nat.add replicate reshape app]. rewrite IH, drop_drop.
  by replace (n + m1 * n) with (S m1 * n) by lia.
Qed.

Lemma scan_loop_exited fuel st st' :
  scan_loop fuel st = Some st' → exited st' = exited st.
Proof.
  revert st. induction fuel as [|fuel IH]; intros st Hrun; [done|].
  simpl in Hrun. case_bool_decide; [|by injection Hrun as <-].
  destruct (to_pcm porcupine _) as [pcm|]; [|done]. simpl in Hrun.
  destruct (process porcupine pcm (engineState st)) as [k e].
  case_bool_decide; [by injection Hrun as <-|].
  by apply IH in Hrun.
Qed.

(** While the engine reports nothing on the frames it is given, chunk after
    chunk is cut into whole frames; what is left over is shorter than a
    frame, and no octet is lost, repeated or moved. *)
Lemma quiet_listening_run (chunks : list Buffer) st :
  0 < frameLength porcupine →
  isRecording st = false →
  exited st = false →
  (∀ frames rest,
     Forall whole frames →
     concat frames ++ rest = audioBuffer st ++ concat chunks →
     Forall (λ k, (k < 0)%Z)
            (replay (int16_samples <$> frames) (engineState st)).1) →
  ∃ st' outs,
    run (MicData <$> chunks) st = Some st'
    ∧ trace st' = trace st ++ outs
    ∧ Forall (scan_ok porcupine) outs
    ∧ concat (scanned_frames outs) ++ audioBuffer st'
      = audioBuffer st ++ concat chunks
    ∧ isRecording st' = false
    ∧ (length (audioBuffer st) < frameLength porcupine * 2 →
       length (audioBuffer st') < frameLength porcupine * 2).
Proof.
  intros Hfl. revert st.
  induction chunks as [|c chunks IH]; intros st Hrec Halive Hquiet.
  - exists st, []. simpl. by rewrite !app_nil_r.
  - destruct (on_data_returns porcupine Hfl c st) as [st1 Hst1].
    pose proof Hst1 as Hscan. rewrite on_data_listening in Hscan by done.
    pose proof (scan_loop_exited _ _ _ Hscan) as Hex1.
    destruct (scan_loop_scans porcupine _ _ _ Hscan) as (outsR & HtrR & Hre & _).
    simpl in Hex1, HtrR, Hre.
    destruct (on_data_listening_inv porcupine _ _ _ Hrec Hst1)
      as (outs1 & Hok1 & Hcat1 & _ & Hcase).
    destruct (scan_ok_frames porcupine _ Hok1) as (Hwhole1 & _).
    assert (concat (scanned_frames outs1) ++ audioBuffer st1 ++ concat chunks
            = audioBuffer st ++ concat (c :: chunks)) as Hpre.
    { rewrite app_assoc, Hcat1. simpl. by rewrite app_assoc. }
    pose proof (Hquiet _ _ Hwhole1 Hpre) as Hq1.
    rewrite <- scan_ok_samples in Hq1 by done.
    destruct Hcase
      as [(quiet & f & p & k & -> & _ & Hk & _ & _ & Htr1)
         |(_ & Hrec1 & _ & Htr1 & Hres1)].
    { rewrite Htr1 in HtrR. apply app_inv_head in HtrR. subst outsR.
      rewrite !scanned_pcm_app, !scanned_keywords_app in Hre.
      simpl in Hre. rewrite !app_nil_r in Hre.
      rewrite scanned_pcm_app in Hq1. simpl in Hq1. rewrite Hre in Hq1.
      cbn [fst] in Hq1.
      rewrite Forall_app, Forall_singleton in Hq1. lia. }
    rewrite Htr1 in HtrR. apply app_inv_head in HtrR. subst outsR.
    destruct (IH st1) as (st' & outs2 & Hrun & Htr & Hok2 & Hcat2 & Hrec' & Hres');
      [done|congruence|..].
    { intros frames rest Hwhole Hcat.
      assert (concat (scanned_frames outs1 ++ frames) ++ rest
              = audioBuffer st ++ concat (c :: chunks)) as Hall.
      { rewrite concat_app, <- app_assoc, Hcat. done. }
      apply Hquiet in Hall; [|by apply Forall_app].
      rewrite fmap_app, <- scan_ok_samples in Hall by done.
      destruct (replay (int16_samples <$> frames) (engineState st1))
        as [ks2 e2] eqn:H2.
      rewrite (replay_app porcupine _ _ _ _ _ _ _ Hre H2) in Hall.
      simpl in *. by apply Forall_app in Hall as [_ ?]. }
    exists st', (outs1 ++ outs2).
    split.
    { change (MicData <$> c :: chunks)
        with (MicData c :: (MicData <$> chunks)).
      assert (step (MicData c) st = Some st1) as Hstep
        by by apply step_handle.
      cbn [run]. by rewrite Hstep. }
    split; [by rewrite Htr, Htr1, <- app_assoc|].
    split; [by apply Forall_app|].
    split.
    { rewrite scanned_frames_app, concat_app, <- app_assoc, Hcat2. done. }
    split; [done|auto].
Qed.

(** C2 (frame integrity).  Take any way of cutting [K * frameLength * 2]
    octets into chunks and feed the chunks to a fresh session; let the
    engine, started in the state [e0], report the keyword on none of the
    [K] frames of [frameLength] samples that these octets hold.  Then the
    handler returns on every chunk; the frames handed to the engine are
    exactly these [K] frames, the [K] consecutive pieces of
    [frameLength * 2] octets of the input, in their order, and the sample
    arrays are the samples that the pieces hold; nothing else is done and
    nothing is left over. *)
Theorem frame_integrity (e0 : engine porcupine) (chunks : list Buffer)
    (K : nat) :
  0 < frameLength porcupine →
  length (concat chunks) = K * frameLength porcupine * 2 →
  Forall (λ k, (k < 0)%Z)
    (replay (int16_samples
               <$> reshape (replicate K (frameLength porcupine * 2))
                           (concat chunks)) e0).1 →
  ∃ st,
    run (MicData <$> chunks) (initial porcupine e0) = Some st
    ∧ scanned_frames (trace st)
      = reshape (replicate K (frameLength porcupine * 2)) (concat chunks)
    ∧ scanned_pcm (trace st)
      = int16_samples
          <$> reshape (replicate K (frameLength porcupine * 2)) (concat chunks)
    ∧ length (scanned_frames (trace st)) = K
    ∧ Forall whole (scanned_frames (trace st))
    ∧ concat (scanned_frames (trace st)) = concat chunks
    ∧ mapM (to_pcm porcupine) (scanned_frames (trace st))
      = Some (scanned_pcm (trace st))
    ∧ Forall (λ pcm, length pcm = frameLength porcupine) (scanned_pcm (trace st))
    ∧ Forall (scan_ok porcupine) (trace st)
    ∧ audioBuffer st = []
    ∧ isRecording st = false.
Proof.
  intros Hfl Htotal Hquiet.
  destruct (quiet_listening_run chunks (initial porcupine e0))
    as (st & outs & Hrun & Htr & Hok & Hcat & Hrec & Hres); [done..| |].
  { intros frames rest Hwhole Hcat. simpl in Hcat.
    pose proof (length_concat_frames _ _ Hwhole) as Hlen.
    assert (length frames ≤ K) as Hle.
    { apply (f_equal length) in Hcat. rewrite length_app, Hlen, Htotal in Hcat.
      nia. }
    replace K with (length frames + (K - length frames)) in Hquiet by lia.
    rewrite reshape_replicate_add, <- Hcat, reshape_whole, fmap_app in Hquiet
      by done.
    by apply replay_prefix in Hquiet. }
  simpl in Htr, Hcat, Hres. subst outs.
  destruct (scan_ok_frames _ _ Hok) as (Hframes & Hpcm & Hread).
  pose proof (length_concat_frames _ _ Hframes) as Hlen.
  assert (length (concat (scanned_frames (trace st)) ++ audioBuffer st)
          = K * frameLength porcupine * 2) as Hsum by (by rewrite Hcat).
  rewrite length_app, Hlen in Hsum.
  specialize (Hres ltac:(lia)).
  assert (length (scanned_frames (trace st)) = K) as HK by nia.
  assert (audioBuffer st = []) as Hnil.
  { apply length_zero_iff_nil. nia. }
  rewrite Hnil, app_nil_r in Hcat.
  assert (scanned_frames (trace st)
          = reshape (replicate K (frameLength porcupine * 2)) (concat chunks))
    as Hshape.
  { rewrite <- Hcat, <- HK, <- (app_nil_r (concat _)).
    symmetry. by apply reshape_whole. }
  exists st. rewrite <- Hshape. repeat split; try done.
  by apply scan_ok_samples.
Qed.

End FrameIntegrity.

Lemma frame_integrity_witness :
  0 < frameLength (patient 2 1)
  ∧ length (concat [[x01]; [x02; x03]; [x04]])
    = 2 * frameLength (patient 2 1) * 2
  ∧ Forall (λ k, (k < 0)%Z)
      (@replay (patient 2 1)
         (int16_samples
            <$> reshape (replicate 2 (frameLength (patient 2 1) * 2))
                        (concat [[x01]; [x02; x03]; [x04]])) 0).1
  ∧ ∃ st,
      run (MicData <$> [[x01]; [x02; x03]; [x04]]) (initial (patient 2 1) 0)
        = Some st
      ∧ scanned_frames (trace st) = [[x01; x02]; [x03; x04]]
      ∧ scanned_pcm (trace st) = [[513%Z]; [1027%Z]].
Proof.
  assert (Forall (λ k, (k < 0)%Z)
            (@replay (patient 2 1)
               (int16_samples
                  <$> reshape (replicate 2 (frameLength (patient 2 1) * 2))
                              (concat [[x01]; [x02; x03]; [x04]])) 0).1)
    as Hquiet by (vm_compute; repeat constructor).
  split; [simpl; lia|]. split; [reflexivity|]. split; [exact Hquiet|].
  destruct (frame_integrity (patient 2 1) 0 [[x01]; [x02; x03]; [x04]] 2)
    as (st & Hrun & Hframes & Hpcm & _); [simpl; lia|reflexivity|exact Hquiet|].
  exists st. split; [done|]. split; [exact Hframes|exact Hpcm].
Defined.
